(** * An LRU cache: [Cache<key_type, value_type>] of [include/Cache.h]

    The class keeps three members next to the capacity:
    - [lru_list], a [std::list<key_type>] ordered from the most recently
      used key (front) to the least recently used one (back);
    - [table], a [std::map] from keys to the stored value together with an
      iterator into [lru_list];
    - [stats], four [int] counters.

    The embedding keeps the list nodes' identity: a list iterator is the
    address of a node, and [splice] moves the node an iterator designates,
    whatever key it holds.  That the iterator stored for a key designates
    the node of that key is therefore a theorem ([wf_run]), not a modelling
    assumption. *)

From Stdlib Require Import ZArith Lia Ascii String.
From Stdlib Require Import Floats.PrimFloat.
From stdpp Require Import gmap strings list fin_maps pretty sorting.

Set Warnings "-inexact-float".

(** ** Machine integers *)

(** [int] and [unsigned] are 32 bits wide.  The constructor converts its
    [int] argument to [unsigned], which is reduction modulo 2^32. *)
Definition INT_MIN : Z := - 2 ^ 31.
Definition INT_MAX : Z := 2 ^ 31 - 1.
Definition UINT_MAX : Z := 2 ^ 32 - 1.

Definition is_int (z : Z) : Prop := (INT_MIN ≤ z ≤ INT_MAX)%Z.

Definition int_to_unsigned (z : Z) : Z := (z mod 2 ^ 32)%Z.

(** What a call can do: return, or leave by an exception. *)
Inductive outcome (A : Type) : Type :=
  | Returns (a : A)
  | Throws.
Arguments Returns {A} a.
Arguments Throws {A}.

(** ** [std::list] with node identity *)

(** A node address; a [list_iter] is one of these. *)
Definition node := nat.

Section List_nodes.
Context {A : Type}.

(** The allocator hands out an address that no live node has. *)
Definition fresh_node (l : list (node * A)) : node := S (max_list (l.*1)).

(** [l.push_front(x)]: a new node, linked before all others. *)
Definition push_front (x : A) (l : list (node * A)) : list (node * A) :=
  (fresh_node l, x) :: l.

(** [l.begin()]: the address of the first node.  Address 0 is never
    allocated and stands for [end()]. *)
Definition list_begin (l : list (node * A)) : node :=
  match l with
  | (n, _) :: _ => n
  | [] => 0
  end.

(** Take the node [li] out of the chain: its payload and the rest. *)
Fixpoint unlink (li : node) (l : list (node * A)) : option (A * list (node * A)) :=
  match l with
  | [] => None
  | (n, x) :: r =>
      if decide (n = li) then Some (x, r)
      else match unlink li r with
           | Some (y, r') => Some (y, (n, x) :: r')
           | None => None
           end
  end.

(** [l.splice(l.begin(), l, li)]: relink the node [li] at the front.  An
    iterator that designates no node of [l] is undefined behaviour in
    C++; the model leaves the list alone then. *)
Definition splice_front (li : node) (l : list (node * A)) : list (node * A) :=
  match unlink li l with
  | Some (x, r) => (li, x) :: r
  | None => l
  end.

(** [l.back()]: the payload of the last node. *)
Definition back (l : list (node * A)) : option A := snd <$> last l.

(** [l.pop_back()]. *)
Definition pop_back (l : list (node * A)) : list (node * A) :=
  take (pred (length l)) l.
End List_nodes.

(** ** The class *)

Section Cache.
Context {key_type : Type} `{Countable key_type} {value_type : Type}.

Record cached_value : Type := mk_cached_value {
  value : value_type;
  cache_i : node
}.

Record cache_statistics : Type := mk_stats {
  found_hits : Z;
  found : Z;
  removed : Z;
  miss : Z
}.

Record Cache : Type := mk_cache {
  maxsize : Z;
  lru_list : list (node * key_type);
  table : gmap key_type cached_value;
  stats : cache_statistics
}.

(** [cache_statistics()]: every counter starts at zero. *)
Definition stats_init : cache_statistics := mk_stats 0 0 0 0.

(** The counters are [int]s and are only ever incremented.  Signed
    overflow has no defined meaning in C++, so the counters are followed
    as integers; [counters_in_int] shows they stay inside [int] for runs
    of fewer than 2^31 calls. *)
Definition incr_found_hits (s : cache_statistics) : cache_statistics :=
  mk_stats (found_hits s + 1) (found s) (removed s) (miss s).
Definition incr_found (s : cache_statistics) : cache_statistics :=
  mk_stats (found_hits s) (found s + 1) (removed s) (miss s).
Definition incr_removed (s : cache_statistics) : cache_statistics :=
  mk_stats (found_hits s) (found s) (removed s + 1) (miss s).

Definition set_stats (s : cache_statistics) (c : Cache) : Cache :=
  mk_cache (maxsize c) (lru_list c) (table c) s.
Definition set_lru_list (l : list (node * key_type)) (c : Cache) : Cache :=
  mk_cache (maxsize c) l (table c) (stats c).
Definition set_table (t : gmap key_type cached_value) (c : Cache) : Cache :=
  mk_cache (maxsize c) (lru_list c) t (stats c).

(** [Cache(int size) : maxsize(size) { }] *)
Definition Cache_new (size : Z) : Cache :=
  mk_cache (int_to_unsigned size) [] ∅ stats_init.

(** The constructor as a call: its body is empty, so it returns. *)
Definition Cache_ctor (size : Z) : outcome Cache := Returns (Cache_new size).

(** A [value_type*] into the table: null, or the address of the [value]
    field of the entry of a key. *)
Definition value_ptr : Type := option key_type.

(** [*p] read and [*p = v] written, for a non-null [p]. *)
Definition deref (p : key_type) (c : Cache) : option value_type :=
  value <$> table c !! p.
Definition assign (p : key_type) (v : value_type) (c : Cache) : Cache :=
  set_table (alter (λ cv, mk_cached_value v (cache_i cv)) p (table c)) c.

(** [table.insert(make_pair(key, cv))]: [std::map::insert] keeps an
    existing entry. *)
Definition map_insert (key : key_type) (cv : cached_value)
    (t : gmap key_type cached_value) : gmap key_type cached_value :=
  match t !! key with
  | Some _ => t
  | None => <[key := cv]> t
  end.

(** [value_type* find(const key_type& key)] *)
Definition find (key : key_type) (c : Cache) : value_ptr * Cache :=
  let ti := table c !! key in
  let c := set_stats (incr_found_hits (stats c)) c in
  match ti with
  | None => (None, c)
  | Some cv =>
      let c := set_stats (incr_found (stats c)) c in
      let li := cache_i cv in
      let c := set_lru_list (splice_front li (lru_list c)) c in
      (Some key, c)
  end.

(** Lines 174-176 of [insert]: link a node for [key] at the front and
    enter the key with the iterator to that node. *)
Definition add_entry (key : key_type) (v : value_type) (c : Cache) : Cache :=
  let c := set_lru_list (push_front key (lru_list c)) c in
  let cv := mk_cached_value v (list_begin (lru_list c)) in
  set_table (map_insert key cv (table c)) c.

(** Line 178: [lru_list.size() > maxsize]. *)
Definition overflow (c : Cache) : bool :=
  bool_decide (maxsize c < Z.of_nat (length (lru_list c)))%Z.

(** Lines 178-183 of [insert].  [back()] of an empty list is undefined
    behaviour; it cannot be reached, since the test passed only if the
    list has more than [maxsize >= 0] nodes. *)
Definition evict_lru (c : Cache) : Cache :=
  if overflow c then
    match back (lru_list c) with
    | Some lru_key =>
        let c := set_table (delete lru_key (table c)) c in
        let c := set_lru_list (pop_back (lru_list c)) c in
        set_stats (incr_removed (stats c)) c
    | None => c
    end
  else c.

(** [void insert(const key_type& key, const value_type& value)] *)
Definition insert (key : key_type) (v : value_type) (c : Cache) : Cache :=
  let '(valptr, c) := find key c in
  match valptr with
  | Some p => assign p v c
  | None => evict_lru (add_entry key v c)
  end.

(** ** [statistics] *)

(** [std::endl] ends the line. *)
Definition endl : string := String "010"%char EmptyString.

(** [out << label << n << std::endl] *)
Definition put_line (label : string) (n : Z) (out : string) : string :=
  out +:+ label +:+ pretty n +:+ endl.

(** [void statistics(std::ostream& out) const]: the text in the stream
    after the call, and the object, which a [const] method cannot
    change. *)
Definition statistics (out : string) (c : Cache) : string * Cache :=
  let out := put_line "cache found hits:" (found_hits (stats c)) out in
  let out := put_line "cache found     :" (found (stats c)) out in
  let out := put_line "cache removed   :" (removed (stats c)) out in
  let out :=
    put_line "cache missed    :" (found_hits (stats c) - found (stats c)) out in
  (out, c).

(** ** Runs of public calls *)

Inductive op : Type :=
  | Find (key : key_type)
  | Insert (key : key_type) (v : value_type).

Definition op_key (o : op) : key_type :=
  match o with
  | Find key => key
  | Insert key _ => key
  end.

Definition step (c : Cache) (o : op) : Cache :=
  match o with
  | Find key => (find key c).2
  | Insert key v => insert key v c
  end.

Definition run (c : Cache) (ops : list op) : Cache := foldl step c ops.

(** ** Vocabulary of the properties *)

Definition cache_size (c : Cache) : nat := length (lru_list c).
Definition resident (key : key_type) (c : Cache) : Prop :=
  is_Some (table c !! key).
Definition keys (c : Cache) : list key_type := (lru_list c).*2.
Definition most_recently_used (c : Cache) : option key_type := head (keys c).

(** The latest call of a history that names [key], counting calls from
    1; 0 when no call names it.  Both [find] and [insert] count. *)
Fixpoint last_touch_rev (rops : list op) (key : key_type) : nat :=
  match rops with
  | [] => 0
  | o :: r =>
      if decide (op_key o = key) then length rops else last_touch_rev r key
  end.
Definition last_touch (ops : list op) (key : key_type) : nat :=
  last_touch_rev (reverse ops) key.

(** A call triggers an overflow when it is an insert of an absent key
    and the test of line 178 succeeds after the key was added. *)
Definition overflowing (c : Cache) (o : op) : bool :=
  match o with
  | Find _ => false
  | Insert key v =>
      bool_decide (table c !! key = None)
      && overflow (add_entry key v (find key c).2)
  end.

(** ** Invariants of the representation *)

(** The table and the list describe the same entries: node addresses
    and keys are not repeated, and the iterator stored for a key
    designates the node that holds that key. *)
Record linked (c : Cache) : Prop := mk_linked {
  linked_nodes : NoDup (lru_list c).*1;
  linked_keys : NoDup (keys c);
  linked_table : ∀ k cv,
    table c !! k = Some cv → (cache_i cv, k) ∈ lru_list c;
  linked_list : ∀ n k,
    (n, k) ∈ lru_list c → ∃ cv, table c !! k = Some cv ∧ cache_i cv = n
}.

Definition within_capacity (c : Cache) : Prop :=
  (Z.of_nat (cache_size c) ≤ maxsize c)%Z.

Definition wf (c : Cache) : Prop := linked c ∧ within_capacity c.

(** [a] was touched later than [b] in the history [ops]. *)
Definition more_recent (ops : list op) (a b : key_type) : Prop :=
  last_touch ops b < last_touch ops a.

(** The list runs from the latest touched key to the earliest. *)
Definition recency_ordered (ops : list op) (c : Cache) : Prop :=
  StronglySorted (more_recent ops) (keys c).

(** ** Counting calls along a run *)

(** How many calls of [ops], run from [c], satisfy [P] in the state
    they are made in. *)
Fixpoint count_calls (P : Cache → op → bool) (c : Cache) (ops : list op) : nat :=
  match ops with
  | [] => 0
  | o :: r => (if P c o then 1 else 0) + count_calls P (step c o) r
  end.

Definition is_find (_ : Cache) (o : op) : bool :=
  match o with Find _ => true | Insert _ _ => false end.
Definition is_insert (_ : Cache) (o : op) : bool :=
  match o with Find _ => false | Insert _ _ => true end.
Definition is_hit (c : Cache) (o : op) : bool :=
  bool_decide (is_Some (table c !! op_key o)).
Definition is_find_hit (c : Cache) (o : op) : bool := is_find c o && is_hit c o.
Definition is_insert_hit (c : Cache) (o : op) : bool :=
  is_insert c o && is_hit c o.

(** The value [statistics] prints on its last line. *)
Definition reported_missed (c : Cache) : Z :=
  (found_hits (stats c) - found (stats c))%Z.

(** ** Further vocabulary *)

(** An insert of a key that is not in the table. *)
Definition is_insert_miss (c : Cache) (o : op) : bool :=
  is_insert c o && negb (is_hit c o).

(** The call stores a value under [key]. *)
Definition writes (key : key_type) (o : op) : bool :=
  match o with
  | Find _ => false
  | Insert k _ => bool_decide (k = key)
  end.

(** The keys the inserts of a history name. *)
Definition inserted_keys (ops : list op) : gset key_type :=
  list_to_set
    (omap (λ o, match o with Insert k _ => Some k | Find _ => None end) ops).

(** The entries of the cache in list order: each key of the list with
    the value the table stores for it. *)
Definition entries (t : gmap key_type cached_value) (ks : list key_type)
    : list (key_type * value_type) :=
  omap (λ k, cv ← t !! k; Some (k, value cv)) ks.
Definition contents (c : Cache) : list (key_type * value_type) :=
  entries (table c) (keys c).

(** *** A reference LRU list

    Not taken from the source: the textbook description of an LRU cache
    as an association list of at most [n] entries, most recent first.  It
    is what the class is compared with in [cache_refines_lru_list]. *)
Definition lru_list_find (k : key_type) (L : list (key_type * value_type))
    : list (key_type * value_type) :=
  filter (λ kv, kv.1 = k) L ++ filter (λ kv, kv.1 ≠ k) L.
Definition lru_list_insert (n : nat) (k : key_type) (v : value_type)
    (L : list (key_type * value_type)) : list (key_type * value_type) :=
  take n ((k, v) :: filter (λ kv, kv.1 ≠ k) L).
Definition lru_list_step (n : nat) (L : list (key_type * value_type)) (o : op)
    : list (key_type * value_type) :=
  match o with
  | Find k => lru_list_find k L
  | Insert k v => lru_list_insert n k v L
  end.
Definition lru_list_run (n : nat) (ops : list op) : list (key_type * value_type) :=
  foldl (lru_list_step n) [] ops.

(** [for (int i = 0; i < n; ++i) cc.find(key);] as in lines 37-38 of the
    test program: the pointer each call returns is dropped. *)
Definition find_loop (n : nat) (key : key_type) (c : Cache) : Cache :=
  Nat.iter n (λ c, (find key c).2) c.
End Cache.

(** ** Text *)

(** The number of line ends in a text. *)
Fixpoint newlines (s : string) : nat :=
  match s with
  | EmptyString => 0
  | String a r => (if Ascii.eqb a "010" then 1 else 0) + newlines r
  end.

(** ** The test program *)

(** [test/test_cache.cpp], lines 19 to 32: a [Cache<std::string, double>]
    of capacity 4, four inserts, a fifth, a lookup, a sixth insert. *)
Module Test.
Definition cc0 : @Cache string _ _ float := Cache_new 4.
Definition cc4 : Cache :=
  run cc0
    [Insert "pi" 3.14%float; Insert "e" 2.17%float;
     Insert "gold" 1.61%float; Insert "sq2" 1.14%float].
Definition cc5 : Cache := insert "zero" 0%float cc4.
Definition e_value : value_ptr * Cache := find "e" cc5.
Definition cc6 : Cache := e_value.2.
Definition cc7 : Cache := insert "one" 1%float cc6.

(** The cache as [insert] has it at line 178, before the size test. *)
Definition before_eviction (key : string) (v : float)
    (c : @Cache string _ _ float) : @Cache string _ _ float :=
  add_entry key v (find key c).2.
End Test.

(** Small histories over string keys and integer values. *)
Module Sample.
Definition cache (capacity : Z) : @Cache string _ _ Z := Cache_new capacity.
Definition fill : list (@op string Z) :=
  [Insert "a" 1%Z; Insert "b" 2%Z; Find "a"].
Definition hit_after_insert : list (@op string Z) :=
  [Insert "a" 1%Z; Find "a"].
End Sample.

(** [main] of [test/test_cache.cpp] from line 35 on: a report, thirty
    lookups of "one", a second report; [cout] is the text written. *)
Module Main.
Definition first_report : string := (statistics "" Test.cc7).1.
Definition after_loop : @Cache string _ _ float := find_loop 30 "one" Test.cc7.
Definition cout : string := (statistics first_report after_loop).1.
End Main.

(** * Properties *)

(** ** The node list *)

Section List_nodes_facts.
Context {A : Type}.
Implicit Types (l r : list (node * A)) (li : node) (x : A).

Lemma fresh_node_not_elem l : fresh_node l ∉ l.*1.
Proof. apply max_list_not_elem_of_gt. unfold fresh_node. lia. Qed.

Lemma fresh_node_pos l : fresh_node l ≠ 0.
Proof. unfold fresh_node. lia. Qed.

(** A successful [unlink] cuts the list around the first node [li]. *)
Lemma unlink_Some li l x r :
  unlink li l = Some (x, r) →
  ∃ l1 l2, l = l1 ++ (li, x) :: l2 ∧ r = l1 ++ l2.
Proof.
  revert r. induction l as [|[n y] t IH]; intros r; simpl; [done|].
  case_decide as Hn.
  - intros [= -> ->]. subst n. by exists [], r.
  - destruct (unlink li t) as [[z t']|] eqn:Hu; [|done].
    intros [= -> <-]. destruct (IH t' eq_refl) as (l1 & l2 & -> & ->).
    by exists ((n, y) :: l1), l2.
Qed.

(** With distinct addresses, the node an iterator designates is found
    and its payload is the one stored with that address. *)
Lemma unlink_elem li x l :
  NoDup l.*1 → (li, x) ∈ l → ∃ r, unlink li l = Some (x, r).
Proof.
  induction l as [|[n y] t IH]; simpl; intros Hnd Hin.
  - by apply elem_of_nil in Hin.
  - apply NoDup_cons in Hnd as [Hn Hnd].
    apply elem_of_cons in Hin as [[= <- <-]|Hin].
    + rewrite decide_True by done. eauto.
    + case_decide as Heq.
      * subst n. destruct Hn. by apply (list_elem_of_fmap_2 fst) in Hin.
      * destruct (IH Hnd Hin) as [r ->]. eauto.
Qed.

Lemma splice_front_elem li x l :
  NoDup l.*1 → (li, x) ∈ l →
  ∃ l1 l2, l = l1 ++ (li, x) :: l2 ∧ splice_front li l = (li, x) :: l1 ++ l2.
Proof.
  intros Hnd Hin. destruct (unlink_elem li x l Hnd Hin) as [r Hr].
  unfold splice_front. rewrite Hr.
  destruct (unlink_Some _ _ _ _ Hr) as (l1 & l2 & -> & ->). eauto.
Qed.

Lemma splice_front_perm li x l :
  NoDup l.*1 → (li, x) ∈ l → splice_front li l ≡ₚ l.
Proof.
  intros Hnd Hin.
  destruct (splice_front_elem li x l Hnd Hin) as (l1 & l2 & -> & ->).
  by rewrite Permutation_middle.
Qed.

Lemma back_snoc l n x : back (l ++ [(n, x)]) = Some x.
Proof. unfold back. by rewrite last_snoc. Qed.

Lemma pop_back_snoc l (y : node * A) : pop_back (l ++ [y]) = l.
Proof.
  unfold pop_back. rewrite length_app. simpl.
  replace (pred (length l + 1)) with (length l) by lia.
  by rewrite take_app_length.
Qed.

Lemma back_None l : back l = None → l = [].
Proof.
  unfold back. destruct (last l) eqn:Hl; [done|]. intros _.
  by apply last_None.
Qed.

Lemma back_Some l x : back l = Some x → ∃ l' n, l = l' ++ [(n, x)].
Proof.
  unfold back. destruct (last l) as [[n y]|] eqn:Hl; [|done].
  intros [= <-]. apply last_Some in Hl as [l' ->]. eauto.
Qed.
End List_nodes_facts.

(** ** The representation invariant *)

Section Cache_facts.
Context {key_type : Type} `{Countable key_type} {value_type : Type}.
Abbreviation Cache := (@Cache key_type _ _ value_type).
Abbreviation op := (@op key_type value_type).
Implicit Types (c : Cache) (key k : key_type) (v : value_type)
  (ops : list op) (o : op).

Lemma resident_keys c k : linked c → resident k c ↔ k ∈ keys c.
Proof.
  intros Hl. unfold resident, keys. split.
  - intros [cv Hcv]. apply (linked_table c Hl) in Hcv.
    by apply (list_elem_of_fmap_2 snd) in Hcv.
  - intros ([n k'] & -> & Hin)%list_elem_of_fmap_1.
    destruct (linked_list c Hl _ _ Hin) as (cv & Hcv & _). by exists cv.
Qed.

Lemma dom_table_keys c : linked c → dom (table c) = list_to_set (keys c).
Proof.
  intros Hl. apply set_eq. intros k.
  rewrite elem_of_dom, elem_of_list_to_set. by apply resident_keys.
Qed.

(** The index and the recency ordering have as many entries. *)
Lemma table_size c : linked c → size (table c) = length (lru_list c).
Proof.
  intros Hl. rewrite <- size_dom, (dom_table_keys c Hl).
  rewrite size_list_to_set by apply (linked_keys c Hl).
  unfold keys. by rewrite length_fmap.
Qed.

Lemma linked_new size : linked (Cache_new size : Cache).
Proof.
  split; simpl; try constructor.
  - intros k cv. by rewrite lookup_empty.
  - intros n k Hin. by apply elem_of_nil in Hin.
Qed.

(** Reordering the nodes, or changing the counters, keeps the link. *)
Lemma linked_perm c c' :
  lru_list c' ≡ₚ lru_list c → table c' = table c → linked c → linked c'.
Proof.
  intros Hp Ht [Hn Hk Htl Hlt]. split.
  - by rewrite Hp.
  - unfold keys. by rewrite Hp.
  - intros k cv. rewrite Ht, Hp. apply Htl.
  - intros n k. rewrite Ht, Hp. apply Hlt.
Qed.

Lemma linked_find key c : linked c → linked (find key c).2.
Proof.
  intros Hl. unfold find.
  destruct (table c !! key) as [cv|] eqn:Hcv; simpl.
  - apply (linked_perm c); [simpl|done|done].
    eapply splice_front_perm; [apply (linked_nodes c Hl)|].
    by apply (linked_table c Hl).
  - by apply (linked_perm c).
Qed.

Lemma linked_assign key v c : linked c → linked (assign key v c).
Proof.
  intros [Hn Hk Htl Hlt]. split; simpl; [done|done| |].
  - intros k cv. rewrite lookup_alter. case_decide as Hd.
    + subst k. destruct (table c !! key) as [cv0|] eqn:Hcv; [|done].
      simpl. intros [= <-]. simpl. by apply Htl.
    + apply Htl.
  - intros n k Hin. destruct (Hlt n k Hin) as (cv & Hcv & Hi).
    rewrite lookup_alter. case_decide as Hd.
    + subst k. rewrite Hcv. simpl. eauto.
    + eauto.
Qed.

Lemma linked_add_entry key v c :
  linked c → table c !! key = None → linked (add_entry key v c).
Proof.
  intros Hl Hnone. pose proof Hl as [Hn Hk Htl Hlt].
  unfold add_entry, map_insert. simpl. rewrite Hnone.
  split; simpl.
  - apply NoDup_cons. split; [apply fresh_node_not_elem|done].
  - apply NoDup_cons. split; [|done].
    intros Hin. apply (resident_keys c key Hl) in Hin.
    destruct Hin as [? Hin]. congruence.
  - intros k cv. rewrite lookup_insert. case_decide as Hd.
    + subst k. intros [= <-]. simpl. apply elem_of_cons. by left.
    + intros Hcv. apply elem_of_cons. right. by apply Htl.
  - intros n k [[= -> ->]|Hin]%elem_of_cons.
    + rewrite lookup_insert_eq. eauto.
    + destruct (Hlt n k Hin) as (cv & Hcv & Hi).
      rewrite lookup_insert_ne by congruence. eauto.
Qed.
(** *** The two paths of [find] and of [insert] *)

Lemma find_miss_eq key c :
  table c !! key = None →
  find key c = (None, set_stats (incr_found_hits (stats c)) c).
Proof. intros Hk. unfold find. by rewrite Hk. Qed.

Lemma find_hit_eq key c cv :
  table c !! key = Some cv →
  find key c =
    (Some key,
     mk_cache (maxsize c) (splice_front (cache_i cv) (lru_list c)) (table c)
       (incr_found (incr_found_hits (stats c)))).
Proof. intros Hk. unfold find. by rewrite Hk. Qed.

Lemma insert_miss_eq key v c :
  table c !! key = None →
  insert key v c = evict_lru (add_entry key v (find key c).2).
Proof. intros Hk. unfold insert. by rewrite (find_miss_eq key c Hk). Qed.

Lemma insert_hit_eq key v c :
  is_Some (table c !! key) →
  insert key v c = assign key v (find key c).2.
Proof. intros [cv Hk]. unfold insert. by rewrite (find_hit_eq key c cv Hk). Qed.

Lemma find_table key c : table (find key c).2 = table c.
Proof. unfold find. by destruct (table c !! key). Qed.

Lemma find_maxsize key c : maxsize (find key c).2 = maxsize c.
Proof. unfold find. by destruct (table c !! key). Qed.

Lemma find_size key c : linked c → cache_size (find key c).2 = cache_size c.
Proof.
  intros Hl. unfold find, cache_size.
  destruct (table c !! key) as [cv|] eqn:Hcv; simpl; [|done].
  apply Permutation_length.
  eapply splice_front_perm; [apply (linked_nodes c Hl)|].
  by apply (linked_table c Hl).
Qed.

(** What line 178 to 183 do, by cases. *)
Lemma evict_lru_cases c :
  (overflow c = false ∧ evict_lru c = c)
  ∨ (overflow c = true ∧ lru_list c = [] ∧ evict_lru c = c)
  ∨ (overflow c = true ∧ ∃ l n e,
       lru_list c = l ++ [(n, e)] ∧ back (lru_list c) = Some e ∧
       evict_lru c =
         mk_cache (maxsize c) l (delete e (table c)) (incr_removed (stats c))).
Proof.
  unfold evict_lru. destruct (overflow c); [|by left]. right.
  destruct (back (lru_list c)) as [e|] eqn:Hb.
  - right. split; [done|]. destruct (back_Some _ _ Hb) as (l & n & Hl).
    exists l, n, e. split; [done|]. split; [done|].
    unfold set_stats, set_lru_list, set_table. simpl.
    by rewrite Hl, pop_back_snoc.
  - left. by rewrite (back_None _ Hb).
Qed.

Lemma linked_evict_lru c : linked c → linked (evict_lru c).
Proof.
  intros Hl.
  destruct (evict_lru_cases c)
    as [[_ ->]|[(_ & _ & ->)|(_ & l & n & e & Hc & _ & ->)]]; [done|done|].
  destruct Hl as [Hn Hk Htl Hlt]. unfold keys in Hk.
  rewrite Hc in Hn, Hk. rewrite fmap_app in Hn. rewrite fmap_app in Hk.
  apply NoDup_app in Hn as (Hn & _ & _). apply NoDup_app in Hk as (Hk & He & _).
  split; simpl; [done|done| |].
  - intros k cv. rewrite lookup_delete. case_decide as Hd; [done|].
    intros Hcv. apply Htl in Hcv. rewrite Hc in Hcv.
    apply elem_of_app in Hcv as [?|Hcv]; [done|].
    apply list_elem_of_singleton in Hcv. congruence.
  - intros n' k Hin. destruct (Hlt n' k) as (cv & Hcv & Hi).
    { rewrite Hc. apply elem_of_app. by left. }
    exists cv. split; [|done]. rewrite lookup_delete_ne; [done|].
    intros <-. apply (He e); [|simpl; apply list_elem_of_singleton; done].
    by apply (list_elem_of_fmap_2 snd) in Hin.
Qed.

Lemma linked_insert key v c : linked c → linked (insert key v c).
Proof.
  intros Hl. destruct (table c !! key) as [cv|] eqn:Hk.
  - rewrite insert_hit_eq by eauto. by apply linked_assign, linked_find.
  - rewrite insert_miss_eq by done.
    apply linked_evict_lru, linked_add_entry; [by apply linked_find|].
    by rewrite find_table.
Qed.

Lemma insert_maxsize key v c : maxsize (insert key v c) = maxsize c.
Proof.
  destruct (table c !! key) as [cv|] eqn:Hk.
  - rewrite insert_hit_eq by eauto. simpl. apply find_maxsize.
  - rewrite insert_miss_eq, (find_miss_eq key c Hk) by done. simpl.
    by destruct (evict_lru_cases (add_entry key v
        (set_stats (incr_found_hits (stats c)) c)))
      as [[_ ->]|[(_ & _ & ->)|(_ & l & n & e & _ & _ & ->)]].
Qed.

Lemma add_entry_size key v c : cache_size (add_entry key v c) = S (cache_size c).
Proof. done. Qed.

Lemma capacity_insert key v c : wf c → within_capacity (insert key v c).
Proof.
  intros [Hl Hc]. unfold within_capacity in *. rewrite insert_maxsize.
  destruct (table c !! key) as [cv|] eqn:Hk.
  - rewrite insert_hit_eq by eauto.
    change (cache_size (assign key v (find key c).2))
      with (cache_size (find key c).2).
    by rewrite find_size.
  - rewrite insert_miss_eq by done.
    pose proof (find_size key c Hl) as Hs.
    pose proof (find_maxsize key c) as Hm.
    set (c1 := (find key c).2) in *.
    pose proof (add_entry_size key v c1) as Ha.
    assert (maxsize (add_entry key v c1) = maxsize c1) as Hm' by done.
    destruct (evict_lru_cases (add_entry key v c1))
      as [[Ho ->]|[(_ & He & _)|(_ & l & n & e & He & _ & ->)]].
    + unfold overflow in Ho. apply bool_decide_eq_false in Ho.
      fold (cache_size (add_entry key v c1)) in Ho. lia.
    + done.
    + unfold cache_size in *. simpl. rewrite He, length_app in Ha.
      simpl in Ha. lia.
Qed.

Lemma wf_new size : wf (Cache_new size : Cache).
Proof.
  split; [apply linked_new|]. unfold within_capacity, Cache_new,
    int_to_unsigned. simpl.
  apply Z.mod_pos_bound. lia.
Qed.

Lemma wf_step c o : wf c → wf (step c o).
Proof.
  intros Hwf. pose proof Hwf as [Hl Hc]. destruct o as [key|key v]; simpl.
  - split; [by apply linked_find|]. unfold within_capacity in *.
    by rewrite find_size, find_maxsize.
  - split; [by apply linked_insert|by apply capacity_insert].
Qed.

Lemma run_snoc c ops o : run c (ops ++ [o]) = step (run c ops) o.
Proof. unfold run. by rewrite foldl_snoc. Qed.

Lemma wf_run c ops : wf c → wf (run c ops).
Proof.
  intros Hwf. induction ops as [|o ops IH] using rev_ind; [done|].
  rewrite run_snoc. by apply wf_step.
Qed.

Lemma step_maxsize c o : maxsize (step c o) = maxsize c.
Proof. destruct o; [apply find_maxsize|apply insert_maxsize]. Qed.

Lemma run_maxsize c ops : maxsize (run c ops) = maxsize c.
Proof.
  induction ops as [|o ops IH] using rev_ind; [done|].
  by rewrite run_snoc, step_maxsize.
Qed.

(** ** The recency ordering *)

Lemma last_touch_snoc ops o k :
  last_touch (ops ++ [o]) k =
    if decide (op_key o = k) then S (length ops) else last_touch ops k.
Proof.
  unfold last_touch. rewrite reverse_snoc. simpl.
  by rewrite length_reverse.
Qed.

Lemma last_touch_rev_le (rops : list op) k : last_touch_rev rops k ≤ length rops.
Proof.
  induction rops as [|o r IH]; simpl; [done|]. case_decide; lia.
Qed.

Lemma last_touch_le ops k : last_touch ops k ≤ length ops.
Proof.
  unfold last_touch. rewrite <- (length_reverse ops). apply last_touch_rev_le.
Qed.

Lemma StronglySorted_impl_elem {B} (R R' : relation B) (l : list B) :
  (∀ a b, a ∈ l → b ∈ l → R a b → R' a b) →
  StronglySorted R l → StronglySorted R' l.
Proof.
  induction l as [|x l IH]; intros Himp Hs; [constructor|].
  apply StronglySorted_cons in Hs as [Hx Hs]. apply StronglySorted_cons. split.
  - rewrite Forall_forall in *. intros y Hy.
    apply Himp; [apply elem_of_cons; by left|apply elem_of_cons; by right|auto].
  - apply IH; [|done]. intros a b Ha Hb. apply Himp; apply elem_of_cons; by right.
Qed.

(** A call that names a key outside the list leaves the order as it is. *)
Lemma sorted_touch_other ops o (l : list key_type) :
  op_key o ∉ l →
  StronglySorted (more_recent ops) l →
  StronglySorted (more_recent (ops ++ [o])) l.
Proof.
  intros Hk. apply StronglySorted_impl_elem. intros a b Ha Hb.
  unfold more_recent. rewrite !last_touch_snoc.
  rewrite !decide_False; [done|by intros Heq; rewrite Heq in Hk..].
Qed.

(** The key a call names goes in front of every other key. *)
Lemma sorted_touch_front ops o (l : list key_type) :
  op_key o ∉ l →
  StronglySorted (more_recent ops) l →
  StronglySorted (more_recent (ops ++ [o])) (op_key o :: l).
Proof.
  intros Hk Hs. apply StronglySorted_cons. split.
  - apply Forall_forall. intros b Hb. unfold more_recent.
    rewrite !last_touch_snoc. pose proof (last_touch_le ops b).
    repeat case_decide; subst; try done; lia.
  - by apply sorted_touch_other.
Qed.

Lemma sorted_remove_middle ops (l1 l2 : list key_type) k :
  StronglySorted (more_recent ops) (l1 ++ k :: l2) →
  StronglySorted (more_recent ops) (l1 ++ l2).
Proof.
  rewrite !StronglySorted_app, StronglySorted_cons.
  intros (H12 & H1 & _ & H2). split_and!; [|done|done].
  intros x1 x2 Hx1 Hx2. apply H12; [done|]. apply elem_of_cons. by right.
Qed.

(** A hit relinks the node of [key] at the front and moves nothing else. *)
Lemma keys_find_hit key c cv :
  linked c → table c !! key = Some cv →
  ∃ l1 l2, keys c = l1 ++ key :: l2 ∧ keys (find key c).2 = key :: l1 ++ l2.
Proof.
  intros Hl Hk. rewrite (find_hit_eq key c cv Hk). unfold keys. simpl.
  destruct (splice_front_elem (cache_i cv) key (lru_list c))
    as (l1 & l2 & Hc & ->);
    [apply (linked_nodes c Hl)|by apply (linked_table c Hl)|].
  exists (l1.*2), (l2.*2). rewrite Hc.
  by rewrite !fmap_cons, !fmap_app, !fmap_cons.
Qed.

Lemma recency_find key c ops :
  linked c → recency_ordered ops c →
  recency_ordered (ops ++ [Find key]) (find key c).2.
Proof.
  intros Hl Hs. unfold recency_ordered in *.
  destruct (table c !! key) as [cv|] eqn:Hk.
  - destruct (keys_find_hit key c cv Hl Hk) as (l1 & l2 & Hc & ->).
    pose proof (linked_keys c Hl) as Hnd. rewrite Hc in Hs, Hnd.
    apply (sorted_touch_front ops (Find key)).
    + simpl. apply NoDup_app in Hnd as (_ & Hd & [Hn2 _]%NoDup_cons).
      intros [Hin|Hin]%elem_of_app; [|done].
      apply (Hd key Hin). apply elem_of_cons. by left.
    + by apply sorted_remove_middle in Hs.
  - rewrite (find_miss_eq key c Hk).
    apply (sorted_touch_other ops (Find key)); [|done].
    simpl. rewrite <- (resident_keys c key Hl). unfold resident.
    rewrite Hk. by intros [? ?].
Qed.

Lemma recency_insert key v c ops :
  linked c → recency_ordered ops c →
  recency_ordered (ops ++ [Insert key v]) (insert key v c).
Proof.
  intros Hl Hs. unfold recency_ordered in *.
  destruct (table c !! key) as [cv|] eqn:Hk.
  - rewrite insert_hit_eq by eauto.
    change (keys (assign key v (find key c).2)) with (keys (find key c).2).
    destruct (keys_find_hit key c cv Hl Hk) as (l1 & l2 & Hc & ->).
    pose proof (linked_keys c Hl) as Hnd. rewrite Hc in Hs, Hnd.
    apply (sorted_touch_front ops (Insert key v)).
    + simpl. apply NoDup_app in Hnd as (_ & Hd & [Hn2 _]%NoDup_cons).
      intros [Hin|Hin]%elem_of_app; [|done].
      apply (Hd key Hin). apply elem_of_cons. by left.
    + by apply sorted_remove_middle in Hs.
  - rewrite insert_miss_eq, (find_miss_eq key c Hk) by done. simpl.
    set (c2 := add_entry key v _).
    assert (StronglySorted (more_recent (ops ++ [Insert key v])) (keys c2)) as Hs2.
    { change (keys c2) with (key :: keys c).
      apply (sorted_touch_front ops (Insert key v)); [|done].
      simpl. rewrite <- (resident_keys c key Hl). unfold resident.
      rewrite Hk. by intros [? ?]. }
    destruct (evict_lru_cases c2)
      as [[_ ->]|[(_ & _ & ->)|(_ & l & n & e & He & _ & ->)]]; [done|done|].
    unfold keys in *. simpl. rewrite He, fmap_app in Hs2.
    by apply StronglySorted_app_1_l in Hs2.
Qed.

Lemma recency_new size : recency_ordered [] (Cache_new size : Cache).
Proof. constructor. Qed.

Lemma recency_run size ops : recency_ordered ops (run (Cache_new size) ops).
Proof.
  induction ops as [|o ops IH] using rev_ind; [apply recency_new|].
  rewrite run_snoc.
  pose proof (wf_run (Cache_new size) ops (wf_new size)) as [Hl _].
  destruct o as [key|key v]; simpl;
    [by apply recency_find|by apply recency_insert].
Qed.

(** ** Capacity *)

Lemma maxsize_new (capacity : Z) :
  (0 ≤ capacity ≤ INT_MAX)%Z → maxsize (Cache_new capacity : Cache) = capacity.
Proof.
  intros Hc. unfold Cache_new, int_to_unsigned, INT_MAX in *. simpl.
  apply Z.mod_small. lia.
Qed.

Lemma maxsize_unsigned (size : Z) (ops : list op) :
  (0 ≤ maxsize (run (Cache_new size) ops) ≤ UINT_MAX)%Z.
Proof.
  rewrite run_maxsize. unfold Cache_new, int_to_unsigned, UINT_MAX. simpl.
  pose proof (Z.mod_pos_bound size (2 ^ 32)). lia.
Qed.

(** C1: a cache built with a capacity of at least 1 holds, after any
    sequence of calls (so after each call of the sequence), at most
    [capacity] entries, and the table and the list have the same number
    of entries. *)
Theorem capacity_bound (capacity : Z) (ops : list op) :
  (1 ≤ capacity ≤ INT_MAX)%Z →
  let c := run (Cache_new capacity) ops in
  (Z.of_nat (cache_size c) ≤ capacity)%Z ∧
  size (table c) = length (lru_list c).
Proof.
  intros Hcap c.
  destruct (wf_run (Cache_new capacity) ops (wf_new capacity)) as [Hl Hc].
  fold c in Hl, Hc. split; [|by apply table_size].
  unfold within_capacity in Hc. subst c.
  rewrite run_maxsize, maxsize_new in Hc by lia. done.
Qed.

(** ** Eviction *)

Lemma insert_miss_full key v c :
  table c !! key = None →
  insert key v c =
    evict_lru
      (mk_cache (maxsize c)
         ((fresh_node (lru_list c), key) :: lru_list c)
         (<[key := mk_cached_value v (fresh_node (lru_list c))]> (table c))
         (incr_found_hits (stats c))).
Proof.
  intros Hk. rewrite insert_miss_eq, (find_miss_eq key c Hk) by done.
  unfold add_entry, map_insert. simpl. by rewrite Hk.
Qed.

Lemma add_entry_find_miss key v c :
  table c !! key = None →
  add_entry key v (find key c).2 =
    mk_cache (maxsize c)
      ((fresh_node (lru_list c), key) :: lru_list c)
      (<[key := mk_cached_value v (fresh_node (lru_list c))]> (table c))
      (incr_found_hits (stats c)).
Proof.
  intros Hk. rewrite (find_miss_eq key c Hk).
  unfold add_entry, map_insert. simpl. by rewrite Hk.
Qed.

(** C2: when an insert of an absent key overflows a cache of capacity at
    least 1, the key [e] taken from the back of the list was resident, its
    latest touch is earlier than that of every other resident key, it is
    gone from the table and from the list afterwards, and every other
    key, the new one included, is resident afterwards. *)
Theorem lru_eviction (capacity : Z) (ops : list op) (key : key_type) (v : value_type) :
  (1 ≤ capacity ≤ INT_MAX)%Z →
  let c := run (Cache_new capacity) ops in
  table c !! key = None →
  overflow (add_entry key v (find key c).2) = true →
  ∃ e,
    back (lru_list (add_entry key v (find key c).2)) = Some e ∧
    resident e c ∧ e ≠ key ∧
    (∀ k, resident k c → k ≠ e → last_touch ops e < last_touch ops k) ∧
    ¬ resident e (insert key v c) ∧
    (e ∉ keys (insert key v c)) ∧
    (∀ k, k ≠ e → (resident k (insert key v c) ↔ resident k c ∨ k = key)).
Proof.
  intros Hcap c Hk Ho.
  destruct (wf_run (Cache_new capacity) ops (wf_new capacity)) as [Hl Hc].
  pose proof (recency_run capacity ops) as Hs.
  pose proof (run_maxsize (Cache_new capacity) ops) as Hm.
  rewrite maxsize_new in Hm by lia.
  fold c in Hl, Hc, Hs, Hm.
  rewrite (insert_miss_full key v c Hk).
  rewrite (add_entry_find_miss key v c Hk) in Ho |- *.
  unfold overflow in Ho. apply bool_decide_eq_true in Ho. simpl in Ho.
  unfold within_capacity, cache_size in Hc.
  destruct (back (lru_list c)) as [e|] eqn:Hb;
    [|apply back_None in Hb; rewrite Hb in Ho; simpl in Ho; lia].
  destruct (back_Some _ _ Hb) as (l & n & Hlist).
  pose proof (linked_keys c Hl) as Hnd.
  unfold recency_ordered in Hs. unfold keys in Hs, Hnd.
  rewrite Hlist, fmap_app in Hs, Hnd. simpl in Hs, Hnd.
  assert (resident e c) as Hres.
  { apply (resident_keys c e Hl). unfold keys. rewrite Hlist, fmap_app.
    apply elem_of_app. right. simpl. by apply list_elem_of_singleton. }
  assert (e ≠ key) as Hne.
  { intros ->. destruct Hres as [? Hres]. congruence. }
  assert (e ∉ l.*2) as Hel.
  { apply NoDup_app in Hnd as (_ & Hd & _). intros Hin.
    apply (Hd e Hin). by apply list_elem_of_singleton. }
  set (c2 := mk_cache _ _ _ _).
  assert (lru_list c2 = ((fresh_node (lru_list c), key) :: l) ++ [(n, e)]) as Hl2.
  { simpl. by rewrite Hlist at 2. }
  exists e. split; [by rewrite Hl2, back_snoc|].
  split; [done|]. split; [done|]. split.
  { intros k Hr Hke. apply (resident_keys c k Hl) in Hr. unfold keys in Hr.
    rewrite Hlist, fmap_app in Hr. apply elem_of_app in Hr as [Hr|Hr].
    - eapply (StronglySorted_app_1_elem_of (more_recent ops)); [exact Hs|done|].
      by apply list_elem_of_singleton.
    - simpl in Hr. by apply list_elem_of_singleton in Hr. }
  destruct (evict_lru_cases c2)
    as [[Hf _]|[(_ & He & _)|(_ & l0 & n0 & e0 & He & _ & ->)]].
  - unfold overflow in Hf. apply bool_decide_eq_false in Hf. simpl in Hf. lia.
  - by rewrite Hl2 in He.
  - rewrite Hl2 in He. apply app_inj_tail in He as [<- [= <- <-]].
    unfold resident, keys. simpl. split_and!.
    + rewrite lookup_delete_eq. by intros [? ?].
    + intros [?|?]%elem_of_cons; done.
    + intros k Hke. rewrite lookup_delete_ne by done.
      rewrite lookup_insert. case_decide as Hd.
      * subst k. split; [by right|eauto].
      * split; [by left|]. intros [?|?]; [done|congruence].
Qed.

(** ** Updating a resident key *)

Lemma insert_hit_full key v c cv :
  table c !! key = Some cv →
  insert key v c =
    mk_cache (maxsize c)
      (splice_front (cache_i cv) (lru_list c))
      (alter (λ cv, mk_cached_value v (cache_i cv)) key (table c))
      (incr_found (incr_found_hits (stats c))).
Proof.
  intros Hk. rewrite insert_hit_eq, (find_hit_eq key c cv Hk) by eauto. done.
Qed.

Lemma insert_hit_lookup key v c cv :
  table c !! key = Some cv →
  table (insert key v c) !! key = Some (mk_cached_value v (cache_i cv)).
Proof.
  intros Hk. rewrite (insert_hit_full key v c cv Hk). simpl.
  by rewrite lookup_alter_eq, Hk.
Qed.

Lemma insert_hit_front key v c :
  linked c → resident key c → most_recently_used (insert key v c) = Some key.
Proof.
  intros Hl [cv Hk]. rewrite insert_hit_eq by eauto.
  unfold most_recently_used.
  change (keys (assign key v (find key c).2)) with (keys (find key c).2).
  by destruct (keys_find_hit key c cv Hl Hk) as (l1 & l2 & _ & ->).
Qed.

(** C4: on a resident key, [insert(k, v1)] then [insert(k, v2)] leaves
    [find(k)] pointing at [v2]; the second insert changes neither the
    number of entries nor the set of resident keys nor the eviction
    counter, and it leaves [k] at the front of the list. *)
Theorem update_in_place (capacity : Z) (ops : list op) (key : key_type)
    (v1 v2 : value_type) :
  let c := run (Cache_new capacity) ops in
  resident key c →
  let c1 := insert key v1 c in
  let c2 := insert key v2 c1 in
  (∃ p c3, find key c2 = (Some p, c3) ∧ deref p c3 = Some v2) ∧
  cache_size c2 = cache_size c1 ∧
  size (table c2) = size (table c1) ∧
  dom (table c2) = dom (table c1) ∧
  removed (stats c2) = removed (stats c1) ∧
  most_recently_used c2 = Some key.
Proof.
  intros c [cv Hk] c1 c2.
  destruct (wf_run (Cache_new capacity) ops (wf_new capacity)) as [Hl _].
  fold c in Hl.
  pose proof (linked_insert key v1 c Hl) as Hl1. fold c1 in Hl1.
  pose proof (linked_insert key v2 c1 Hl1) as Hl2. fold c2 in Hl2.
  pose proof (insert_hit_lookup key v1 c cv Hk) as Hk1. fold c1 in Hk1.
  pose proof (insert_hit_lookup key v2 c1 _ Hk1) as Hk2. fold c2 in Hk2.
  simpl in Hk2.
  assert (dom (table c2) = dom (table c1)) as Hdom.
  { unfold c2. rewrite (insert_hit_full key v2 c1 _ Hk1). simpl.
    apply dom_alter_L. }
  split_and!.
  - eexists key, _. split; [apply (find_hit_eq key c2 _ Hk2)|].
    unfold deref. simpl. by rewrite Hk2.
  - unfold cache_size. by rewrite <- !table_size, <- !size_dom, Hdom.
  - by rewrite <- !size_dom, Hdom.
  - done.
  - unfold c2. by rewrite (insert_hit_full key v2 c1 _ Hk1).
  - apply insert_hit_front; [done|]. unfold resident. by rewrite Hk1.
Qed.

(** ** A miss *)

(** C5: [find] on an absent key returns the null pointer; the table, the
    list and the capacity are as before, the attempts counter is one
    more, and the three other counters are as before. *)
Theorem find_miss_frame (key : key_type) (c : Cache) :
  table c !! key = None →
  ∃ c', find key c = (None, c') ∧
    table c' = table c ∧ lru_list c' = lru_list c ∧ maxsize c' = maxsize c ∧
    found_hits (stats c') = (found_hits (stats c) + 1)%Z ∧
    found (stats c') = found (stats c) ∧
    removed (stats c') = removed (stats c) ∧
    miss (stats c') = miss (stats c).
Proof.
  intros Hk. eexists. split; [apply (find_miss_eq key c Hk)|]. done.
Qed.

(** ** Touches of resident keys *)

(** The overflow test succeeds exactly when the cache is full. *)
Lemma overflow_iff_full key v c :
  wf c → table c !! key = None →
  overflow (add_entry key v (find key c).2) = true ↔
  Z.of_nat (cache_size c) = maxsize c.
Proof.
  intros [_ Hc] Hk. rewrite (add_entry_find_miss key v c Hk).
  unfold overflow, within_capacity, cache_size in *. simpl.
  rewrite bool_decide_eq_true. lia.
Qed.

(** A call on another key does not make a key resident. *)
Lemma step_resident_other c o k :
  op_key o ≠ k → resident k (step c o) → resident k c.
Proof.
  unfold resident. destruct o as [key|key v]; simpl; intros Hne.
  - by rewrite find_table.
  - destruct (table c !! key) as [cv|] eqn:Hk.
    + rewrite (insert_hit_full key v c cv Hk). simpl.
      by rewrite lookup_alter_ne.
    + rewrite (insert_miss_full key v c Hk). set (c2 := mk_cache _ _ _ _).
      destruct (evict_lru_cases c2)
        as [[_ ->]|[(_ & _ & ->)|(_ & l & n & e & _ & _ & ->)]]; simpl.
      * by rewrite lookup_insert_ne.
      * by rewrite lookup_insert_ne.
      * rewrite lookup_delete. case_decide; [by intros [? ?]|].
        by rewrite lookup_insert_ne.
Qed.

(** The latest call that names a resident key was an insert or a lookup
    that found it: a lookup that misses is never the latest touch of a
    resident key. *)
Lemma resident_last_touch capacity ops k :
  resident k (run (Cache_new capacity) ops) →
  ∃ ops1 o ops2,
    ops = ops1 ++ o :: ops2 ∧ op_key o = k ∧
    last_touch ops k = S (length ops1) ∧
    (is_insert (run (Cache_new capacity) ops1) o = true
     ∨ is_hit (run (Cache_new capacity) ops1) o = true).
Proof.
  induction ops as [|o ops IH] using rev_ind.
  - unfold resident. simpl. rewrite lookup_empty. by intros [? ?].
  - rewrite run_snoc. intros Hr. destruct (decide (op_key o = k)) as [Ho|Ho].
    + exists ops, o, []. split; [done|]. split; [done|].
      split; [by rewrite last_touch_snoc, decide_True|].
      destruct o as [key|key v]; [right|by left].
      simpl in *. subst key. unfold resident in Hr.
      rewrite find_table in Hr. unfold is_hit. simpl.
      by apply bool_decide_eq_true.
    + apply step_resident_other in Hr; [|done].
      destruct (IH Hr) as (ops1 & o1 & ops2 & -> & Hk & Ht & Hc).
      exists ops1, o1, (ops2 ++ [o]). rewrite <- app_assoc. split; [done|].
      split; [done|]. split; [|done].
      rewrite app_assoc, last_touch_snoc, decide_False by done. exact Ht.
Qed.

(** ** The counters *)

(** What one call does to the counters. *)
Lemma stats_find key c :
  stats (find key c).2 =
    mk_stats (found_hits (stats c) + 1)
      (found (stats c) + (if is_hit c (Find key) then 1 else 0))
      (removed (stats c)) (miss (stats c)).
Proof.
  unfold is_hit. simpl. destruct (table c !! key) as [cv|] eqn:Hk.
  - rewrite (find_hit_eq key c cv Hk), bool_decide_eq_true_2 by eauto. done.
  - rewrite (find_miss_eq key c Hk), bool_decide_eq_false_2
      by (by intros [? ?]).
    simpl. by rewrite Z.add_0_r.
Qed.

Lemma stats_insert key v c :
  stats (insert key v c) =
    mk_stats (found_hits (stats c) + 1)
      (found (stats c) + (if is_hit c (Insert key v) then 1 else 0))
      (removed (stats c) + (if overflowing c (Insert key v) then 1 else 0))
      (miss (stats c)).
Proof.
  unfold is_hit, overflowing. simpl.
  destruct (table c !! key) as [cv|] eqn:Hk.
  - rewrite (insert_hit_full key v c cv Hk), bool_decide_eq_true_2 by eauto.
    rewrite bool_decide_eq_false_2 by done. simpl. by rewrite Z.add_0_r.
  - rewrite (insert_miss_full key v c Hk), (add_entry_find_miss key v c Hk).
    rewrite bool_decide_eq_false_2 by (by intros [? ?]).
    rewrite bool_decide_eq_true_2 by done. simpl.
    set (c2 := mk_cache _ _ _ _).
    destruct (evict_lru_cases c2)
      as [[Ho ->]|[(_ & He & _)|(Ho & l & n & e & _ & _ & ->)]];
      [|by subst c2|]; rewrite Ho; simpl; by rewrite ?Z.add_0_r.
Qed.

Lemma stats_step c o :
  stats (step c o) =
    mk_stats (found_hits (stats c) + 1)
      (found (stats c) + (if is_hit c o then 1 else 0))
      (removed (stats c) + (if overflowing c o then 1 else 0))
      (miss (stats c)).
Proof.
  destruct o as [key|key v]; simpl step.
  - rewrite stats_find. simpl. by rewrite Z.add_0_r.
  - apply stats_insert.
Qed.

Lemma b2n (b : bool) : (if b then 1 else 0)%Z = Z.of_nat (if b then 1 else 0).
Proof. by destruct b. Qed.

Lemma stats_run c ops :
  stats (run c ops) =
    mk_stats (found_hits (stats c) + Z.of_nat (length ops))
      (found (stats c) + Z.of_nat (count_calls is_hit c ops))
      (removed (stats c) + Z.of_nat (count_calls overflowing c ops))
      (miss (stats c)).
Proof.
  revert c. induction ops as [|o ops IH]; intros c.
  - simpl. rewrite !Z.add_0_r. by destruct (stats c).
  - change (run c (o :: ops)) with (run (step c o) ops).
    rewrite IH, stats_step. simpl. rewrite !b2n. f_equal; lia.
Qed.

Lemma count_calls_split c ops :
  length ops = count_calls is_find c ops + count_calls is_insert c ops ∧
  count_calls is_hit c ops =
    count_calls is_find_hit c ops + count_calls is_insert_hit c ops.
Proof.
  revert c. induction ops as [|o ops IH]; intros c; [done|].
  destruct (IH (step c o)) as [IH1 IH2]. simpl. rewrite IH1, IH2.
  unfold is_find_hit, is_insert_hit.
  destruct o; simpl; destruct (is_hit c _); simpl; lia.
Qed.

(** X17: the counters stay inside [int] for fewer than 2^31 calls, so the
    increments of the program never overflow there. *)
Lemma counters_in_int capacity ops :
  (Z.of_nat (length ops) ≤ INT_MAX)%Z →
  let s := stats (run (Cache_new capacity) ops) in
  is_int (found_hits s) ∧ is_int (found s) ∧ is_int (removed s) ∧
  is_int (miss s) ∧ is_int (found_hits s - found s).
Proof.
  intros Hlen s. subst s. rewrite stats_run. simpl.
  assert (∀ P c, count_calls P c ops ≤ length ops) as Hle.
  { intros P. induction ops as [|o r IH]; intros c; simpl; [done|].
    simpl in Hlen. specialize (IH ltac:(lia) (step c o)).
    destruct (P c o); lia. }
  pose proof (Hle is_hit (Cache_new capacity)).
  pose proof (Hle overflowing (Cache_new capacity)).
  unfold is_int, INT_MIN, INT_MAX in *. lia.
Qed.

(** C6, amended: from a fresh cache, the attempts counter equals the
    number of [find] calls plus the number of [insert] calls, the found
    counter equals the [find] hits plus the inserts of a resident key, the
    reported missed value is their difference, and the removed counter
    equals the number of overflowing inserts; one insert adds at most one
    to it. *)
Theorem statistics_accounting (capacity : Z) (ops : list op) :
  let c0 : Cache := Cache_new capacity in
  let c := run c0 ops in
  let N := Z.of_nat (count_calls is_find c0 ops) in
  let H := Z.of_nat (count_calls is_find_hit c0 ops) in
  let I := Z.of_nat (count_calls is_insert c0 ops) in
  let U := Z.of_nat (count_calls is_insert_hit c0 ops) in
  let M := Z.of_nat (count_calls overflowing c0 ops) in
  (found_hits (stats c) = N + I ∧
   found (stats c) = H + U ∧
   reported_missed c = (N + I) - (H + U) ∧
   removed (stats c) = M ∧
   miss (stats c) = 0 ∧
   ∀ key v,
     removed (stats (insert key v c)) =
       removed (stats c) + (if overflowing c (Insert key v) then 1 else 0))%Z.
Proof.
  intros c0 c N HH I U M. subst c N HH I U M. unfold reported_missed.
  rewrite stats_run. simpl.
  destruct (count_calls_split c0 ops) as [-> ->].
  split_and!; try lia.
  intros key v. by rewrite stats_insert, stats_run.
Qed.

(** C9: every [insert] adds one to the attempts counter, and one to the
    found counter exactly when its key is resident; so from a fresh cache
    the attempts counter is the number of calls, inserts and lookups
    alike. *)
Theorem insert_counts_as_lookup :
  (∀ (c : Cache) key v,
     found_hits (stats (insert key v c)) = (found_hits (stats c) + 1)%Z ∧
     found (stats (insert key v c)) =
       (found (stats c) +
        (if bool_decide (resident key c) then 1 else 0))%Z) ∧
  (∀ capacity ops,
     found_hits (stats (run (Cache_new capacity : Cache) ops)) =
       Z.of_nat (length ops)).
Proof.
  split.
  - intros c key v. by rewrite stats_insert.
  - intros capacity ops. by rewrite stats_run.
Qed.

(** ** The report *)

Lemma string_app_assoc (a b d : string) : (a +:+ b) +:+ d = a +:+ b +:+ d.
Proof.
  induction a as [|x a IH]; [done|].
  change (String x ((a +:+ b) +:+ d) = String x (a +:+ b +:+ d)).
  by rewrite IH.
Qed.

Lemma newlines_app (a b : string) : newlines (a +:+ b) = newlines a + newlines b.
Proof.
  induction a as [|x a IH]; [done|].
  change (newlines (String x (a +:+ b)) = newlines (String x a) + newlines b).
  simpl. rewrite IH. lia.
Qed.

Lemma pretty_N_char_no_newline (x : N) :
  Ascii.eqb (pretty_N_char x) "010" = false.
Proof. unfold pretty_N_char. by repeat case_match. Qed.

Lemma newlines_pretty_N_go (x : N) (s : string) :
  newlines (pretty_N_go x s) = newlines s.
Proof.
  revert s. induction (N.lt_wf_0 x) as [x _ IH]. intros s.
  destruct (decide (x = 0)%N) as [->|Hx]; [by rewrite pretty_N_go_0|].
  rewrite pretty_N_go_step by lia. rewrite IH by (apply N.div_lt; lia).
  simpl. by rewrite pretty_N_char_no_newline.
Qed.

Lemma newlines_pretty_N (x : N) : newlines (pretty x) = 0.
Proof.
  unfold pretty, pretty_N. case_decide; [done|]. apply newlines_pretty_N_go.
Qed.

(** A decimal numeral has no line end in it. *)
Lemma newlines_pretty_Z (z : Z) : newlines (pretty z) = 0.
Proof.
  destruct z as [|p|p]; [done| |]; unfold pretty, pretty_Z, pretty,
    pretty_positive.
  - apply newlines_pretty_N.
  - rewrite newlines_app. simpl. apply newlines_pretty_N.
Qed.

Lemma newlines_put_line (label : string) (n : Z) (out : string) :
  newlines (put_line label n out) = newlines out + newlines label + 1.
Proof.
  unfold put_line. rewrite !newlines_app, newlines_pretty_Z. simpl. lia.
Qed.

(** C7: [statistics] leaves the cache as it is and appends to the stream
    four lines, each a label and one number in decimal: the attempts
    counter, the found counter, the removed counter, and the attempts
    counter minus the found counter. *)
Theorem statistics_report (out : string) (c : Cache) :
  let s := stats c in
  statistics out c =
    (out +:+ ("cache found hits:" +:+ pretty (found_hits s) +:+ endl)
         +:+ ("cache found     :" +:+ pretty (found s) +:+ endl)
         +:+ ("cache removed   :" +:+ pretty (removed s) +:+ endl)
         +:+ ("cache missed    :" +:+ pretty (found_hits s - found s)%Z +:+ endl),
     c) ∧
  newlines (statistics out c).1 = newlines out + 4.
Proof.
  intros s. subst s. split.
  - unfold statistics, put_line. f_equal. by rewrite !string_app_assoc.
  - unfold statistics. simpl. rewrite !newlines_put_line. simpl. lia.
Qed.

(** ** Non-positive capacities *)

(** C3, amended: the constructor rejects nothing.  For an [int] that is
    not positive it returns an empty cache whose [maxsize] is 0 for 0 and
    [size + 2^32] for a negative [size]. *)
Theorem ctor_accepts_nonpositive (capacity : Z) :
  is_int capacity → (capacity ≤ 0)%Z →
  ∃ c : Cache,
    Cache_ctor capacity = Returns c ∧
    maxsize c = (if decide (capacity = 0) then 0 else capacity + 2 ^ 32)%Z ∧
    lru_list c = [] ∧ table c = ∅ ∧ stats c = stats_init.
Proof.
  intros [Hlo _] Hle. exists (Cache_new capacity). split; [done|].
  split; [|done]. unfold INT_MIN in Hlo. simpl. unfold int_to_unsigned.
  case_decide as Hz; [by subst|].
  rewrite <- (Z.mod_add capacity 1 (2 ^ 32)) by lia.
  apply Z.mod_small. lia.
Qed.

(** C10: a cache of capacity 0 is empty after any sequence of calls; an
    insert links the new key, finds the list too long, takes that very
    key from the back, and leaves the cache empty with the removed
    counter one higher. *)
Theorem zero_capacity_evicts_at_once (ops : list op) :
  let c : Cache := run (Cache_new 0) ops in
  lru_list c = [] ∧ table c = ∅ ∧
  ∀ key v,
    let c2 := add_entry key v (find key c).2 in
    resident key c2 ∧ overflow c2 = true ∧ back (lru_list c2) = Some key ∧
    insert key v c = evict_lru c2 ∧
    lru_list (insert key v c) = [] ∧ table (insert key v c) = ∅ ∧
    removed (stats (insert key v c)) = (removed (stats c) + 1)%Z.
Proof.
  intros c.
  destruct (wf_run (Cache_new 0) ops (wf_new 0)) as [Hl Hc]. fold c in Hl, Hc.
  unfold within_capacity, cache_size in Hc. unfold c in Hc at 2.
  rewrite run_maxsize in Hc.
  change (maxsize (Cache_new 0)) with 0%Z in Hc.
  assert (lru_list c = []) as Hnil.
  { destruct (lru_list c) as [|x l]; [done|]. rewrite length_cons in Hc. lia. }
  assert (table c = ∅) as Hempty.
  { apply map_size_empty_inv. by rewrite table_size, Hnil. }
  split; [done|]. split; [done|]. intros key v c2.
  assert (table c !! key = None) as Hk by (by rewrite Hempty, lookup_empty).
  assert (maxsize c = 0%Z) as Hm by (unfold c; by rewrite run_maxsize).
  unfold c2. rewrite (insert_miss_eq key v c Hk).
  rewrite (add_entry_find_miss key v c Hk), Hnil, Hempty, Hm.
  unfold resident, overflow, evict_lru. simpl.
  rewrite lookup_insert_eq. split_and!; try done; eauto.
  unfold set_table. simpl. by rewrite delete_insert_eq, delete_empty.
Qed.
End Cache_facts.

(** ** Instances *)

Lemma capacity_bound_witness :
  (1 ≤ 2 ≤ INT_MAX)%Z ∧
  (Z.of_nat (cache_size (run (Sample.cache 2) Sample.fill)) ≤ 2)%Z ∧
  size (table (run (Sample.cache 2) Sample.fill)) =
    length (lru_list (run (Sample.cache 2) Sample.fill)).
Proof.
  split; [unfold INT_MAX; lia|].
  apply (capacity_bound 2 Sample.fill). unfold INT_MAX. lia.
Defined.

Lemma lru_eviction_witness :
  let c := run (Sample.cache 2) Sample.fill in
  (1 ≤ 2 ≤ INT_MAX)%Z ∧
  table c !! "c" = None ∧
  overflow (add_entry "c" 3%Z (find "c" c).2) = true ∧
  ∃ e,
    back (lru_list (add_entry "c" 3%Z (find "c" c).2)) = Some e ∧
    resident e c ∧ e ≠ "c" ∧
    (∀ k, resident k c → k ≠ e →
       last_touch Sample.fill e < last_touch Sample.fill k) ∧
    ¬ resident e (insert "c" 3%Z c) ∧
    (e ∉ keys (insert "c" 3%Z c)) ∧
    (∀ k, k ≠ e → (resident k (insert "c" 3%Z c) ↔ resident k c ∨ k = "c")).
Proof.
  intros c. split; [unfold INT_MAX; lia|]. split; [reflexivity|].
  split; [reflexivity|].
  apply (lru_eviction 2 Sample.fill "c" 3%Z);
    [unfold INT_MAX; lia|reflexivity|reflexivity].
Defined.

Lemma update_in_place_witness :
  let c := run (Sample.cache 2) Sample.fill in
  let c1 := insert "b" 5%Z c in
  let c2 := insert "b" 7%Z c1 in
  resident "b" c ∧
  (∃ p c3, find "b" c2 = (Some p, c3) ∧ deref p c3 = Some 7%Z) ∧
  cache_size c2 = cache_size c1 ∧
  size (table c2) = size (table c1) ∧
  dom (table c2) = dom (table c1) ∧
  removed (stats c2) = removed (stats c1) ∧
  most_recently_used c2 = Some "b".
Proof.
  intros c c1 c2.
  assert (resident "b" c) as Hr by (eexists; reflexivity).
  split; [exact Hr|].
  exact (update_in_place 2 Sample.fill "b" 5%Z 7%Z Hr).
Defined.

Lemma find_miss_frame_witness :
  let c := run (Sample.cache 2) Sample.fill in
  table c !! "z" = None ∧
  ∃ c', find "z" c = (None, c') ∧
    table c' = table c ∧ lru_list c' = lru_list c ∧ maxsize c' = maxsize c ∧
    found_hits (stats c') = (found_hits (stats c) + 1)%Z ∧
    found (stats c') = found (stats c) ∧
    removed (stats c') = removed (stats c) ∧
    miss (stats c') = miss (stats c).
Proof.
  intros c. split; [reflexivity|].
  apply (find_miss_frame "z" c). reflexivity.
Defined.

Lemma ctor_accepts_nonpositive_witness :
  is_int (-1) ∧ (-1 ≤ 0)%Z ∧
  ∃ c : @Cache string _ _ Z,
    Cache_ctor (-1) = Returns c ∧
    maxsize c = 4294967295%Z ∧
    lru_list c = [] ∧ table c = ∅ ∧ stats c = stats_init.
Proof.
  assert (is_int (-1)) as Hi by (unfold is_int, INT_MIN, INT_MAX; lia).
  split; [exact Hi|]. split; [lia|].
  exact (ctor_accepts_nonpositive (-1) Hi ltac:(lia)).
Defined.

(** C3 as stated fails: capacity 0 is accepted, and the constructor
    returns a cache with [maxsize] 0. *)
Lemma ctor_zero_accepted :
  is_int 0 ∧ (0 ≤ 0)%Z ∧
  (Cache_ctor 0 : outcome (@Cache string _ _ Z)) =
    Returns (mk_cache 0 [] ∅ stats_init) ∧
  (Cache_ctor 0 : outcome (@Cache string _ _ Z)) ≠ Throws.
Proof.
  split; [unfold is_int, INT_MIN, INT_MAX; lia|]. split; [lia|].
  split; [reflexivity|discriminate].
Qed.

(** C6 as stated fails: after one insert and one lookup that hits, one
    [find] call was made and it hit, yet the attempts counter is 2 and the
    reported missed value is 1. *)
Lemma attempts_count_inserts_too :
  let c0 := Sample.cache 4 in
  let c := run c0 Sample.hit_after_insert in
  let N := Z.of_nat (count_calls is_find c0 Sample.hit_after_insert) in
  let H := Z.of_nat (count_calls is_find_hit c0 Sample.hit_after_insert) in
  N = 1%Z ∧ H = 1%Z ∧
  found_hits (stats c) = 2%Z ∧ found_hits (stats c) ≠ N ∧
  reported_missed c = 1%Z ∧ reported_missed c ≠ (N - H)%Z.
Proof. vm_compute. repeat split; discriminate. Qed.

(** ** The scenario of the test program *)

(** C8: capacity 4; after the four inserts the size is 4 and nothing was
    evicted; inserting "zero" evicts "pi"; [find("e")] returns a pointer
    to 2.17 and puts "e" in front; inserting "one" evicts "gold". *)
Theorem test_scenario :
  (cache_size Test.cc4 = 4 ∧ removed (stats Test.cc4) = 0%Z ∧
   dom (table Test.cc4) = {["pi"; "e"; "gold"; "sq2"]}) ∧
  (overflow (Test.before_eviction "zero" 0%float Test.cc4) = true ∧
   back (lru_list (Test.before_eviction "zero" 0%float Test.cc4)) = Some "pi" ∧
   dom (table Test.cc4) ∖ dom (table Test.cc5) = {["pi"]} ∧
   dom (table Test.cc5) = {["e"; "gold"; "sq2"; "zero"]} ∧
   keys Test.cc5 = ["zero"; "sq2"; "gold"; "e"] ∧
   cache_size Test.cc5 = 4 ∧ removed (stats Test.cc5) = 1%Z) ∧
  (Test.e_value.1 = Some "e" ∧
   deref "e" Test.cc6 = Some 2.17%float ∧
   most_recently_used Test.cc6 = Some "e" ∧
   keys Test.cc6 = ["e"; "zero"; "sq2"; "gold"] ∧
   removed (stats Test.cc6) = 1%Z) ∧
  (overflow (Test.before_eviction "one" 1%float Test.cc6) = true ∧
   back (lru_list (Test.before_eviction "one" 1%float Test.cc6)) = Some "gold" ∧
   dom (table Test.cc6) ∖ dom (table Test.cc7) = {["gold"]} ∧
   dom (table Test.cc7) = {["e"; "sq2"; "zero"; "one"]} ∧
   keys Test.cc7 = ["one"; "e"; "zero"; "sq2"] ∧
   cache_size Test.cc7 = 4 ∧ removed (stats Test.cc7) = 2%Z).
Proof. vm_compute. repeat split. Qed.

(** What the program prints at line 35. *)
Example test_report :
  (statistics "" Test.cc7).1 =
    "cache found hits:7" +:+ endl +:+ "cache found     :1" +:+ endl +:+
    "cache removed   :2" +:+ endl +:+ "cache missed    :6" +:+ endl.
Proof. reflexivity. Qed.

(** * Further properties of [find] and [insert] *)

Set Warnings "-clear-no-such-hyp".

Section Cache_more.
Context {key_type : Type} `{Countable key_type} {value_type : Type}.
Abbreviation CacheT := (@Cache key_type _ _ value_type).
Abbreviation opT := (@op key_type value_type).
Implicit Types (c : CacheT) (key k : key_type) (v : value_type)
  (ops : list opT) (o : opT).

Lemma linked_run capacity ops : linked (run (Cache_new capacity : CacheT) ops).
Proof. apply (wf_run (Cache_new capacity) ops (wf_new capacity)). Qed.

(** An insert of an absent key, by cases on the size test: the entry is
    added, and when the list is then too long its last node goes. *)
Lemma insert_miss_cases key v c :
  table c !! key = None →
  let cv := mk_cached_value v (fresh_node (lru_list c)) in
  ((Z.of_nat (S (cache_size c)) ≤ maxsize c)%Z ∧
   insert key v c =
     mk_cache (maxsize c) ((fresh_node (lru_list c), key) :: lru_list c)
       (<[key := cv]> (table c)) (incr_found_hits (stats c)))
  ∨ ((maxsize c < Z.of_nat (S (cache_size c)))%Z ∧
     ∃ l n e,
       (fresh_node (lru_list c), key) :: lru_list c = l ++ [(n, e)] ∧
       insert key v c =
         mk_cache (maxsize c) l (delete e (<[key := cv]> (table c)))
           (incr_removed (incr_found_hits (stats c)))).
Proof.
  intros Hk cv. rewrite (insert_miss_full key v c Hk).
  set (c2 := mk_cache _ _ _ _).
  destruct (evict_lru_cases c2)
    as [[Ho ->]|[(_ & He & _)|(Ho & l & n & e & He & _ & ->)]].
  - left. split; [|done]. unfold overflow in Ho.
    apply bool_decide_eq_false in Ho. simpl in Ho. unfold cache_size. lia.
  - by subst c2.
  - right. unfold overflow in Ho. apply bool_decide_eq_true in Ho.
    simpl in Ho. split; [unfold cache_size; lia|]. by exists l, n, e.
Qed.

(** X1: after any sequence of calls the table and the list describe the
    same entries: no node address and no key occurs twice in the list, the
    keys of the list are the keys of the table, and the iterator the table
    stores for a key is the address of the node that holds that key. *)
Theorem representation_invariant (capacity : Z) (ops : list opT) :
  let c : CacheT := run (Cache_new capacity) ops in
  NoDup (lru_list c).*1 ∧ NoDup (keys c) ∧
  (∀ k, resident k c ↔ k ∈ keys c) ∧
  (∀ k cv, table c !! k = Some cv → (cache_i cv, k) ∈ lru_list c) ∧
  (∀ n k, (n, k) ∈ lru_list c →
     ∃ cv, table c !! k = Some cv ∧ cache_i cv = n).
Proof.
  intros c. pose proof (linked_run capacity ops) as Hl. fold c in Hl.
  split_and!.
  - apply (linked_nodes c Hl).
  - apply (linked_keys c Hl).
  - intros k. by apply resident_keys.
  - apply (linked_table c Hl).
  - apply (linked_list c Hl).
Qed.

(** X4: a lookup that hits returns a pointer to the entry of its key,
    relinks that key at the front, keeps the order of all other keys,
    leaves the table as it is and evicts nothing; attempts and found go
    up by one. *)
Theorem find_hit_moves_to_front (capacity : Z) (ops : list opT) (key : key_type) :
  let c : CacheT := run (Cache_new capacity) ops in
  resident key c →
  (find key c).1 = Some key ∧
  table (find key c).2 = table c ∧
  (∃ l1 l2, keys c = l1 ++ key :: l2 ∧ keys (find key c).2 = key :: l1 ++ l2) ∧
  stats (find key c).2 =
    mk_stats (found_hits (stats c) + 1) (found (stats c) + 1)
      (removed (stats c)) (miss (stats c)).
Proof.
  intros c [cv Hk]. pose proof (linked_run capacity ops) as Hl. fold c in Hl.
  split_and!.
  - by rewrite (find_hit_eq key c cv Hk).
  - apply find_table.
  - apply (keys_find_hit key c cv Hl Hk).
  - by rewrite (find_hit_eq key c cv Hk).
Qed.

(** A lookup of the key that is already in front moves nothing. *)
Lemma find_front_list key c :
  linked c → resident key c → most_recently_used c = Some key →
  lru_list (find key c).2 = lru_list c.
Proof.
  intros Hl [cv Hk] Hm. rewrite (find_hit_eq key c cv Hk). simpl.
  pose proof (linked_table c Hl key cv Hk) as Hin.
  pose proof (linked_keys c Hl) as Hnd.
  unfold most_recently_used, keys in Hm, Hnd.
  destruct (lru_list c) as [|[n k] l]; [done|]. simpl in Hm, Hnd.
  injection Hm as ->. apply NoDup_cons in Hnd as [Hnk _].
  apply elem_of_cons in Hin as [[= ->]|Hin].
  - unfold splice_front. simpl. by rewrite decide_True.
  - destruct Hnk. by apply (list_elem_of_fmap_2 snd) in Hin.
Qed.

Lemma find_loop_front n key c :
  linked c → resident key c → most_recently_used c = Some key →
  let c' := find_loop n key c in
  lru_list c' = lru_list c ∧ table c' = table c ∧ maxsize c' = maxsize c ∧
  stats c' =
    mk_stats (found_hits (stats c) + Z.of_nat n) (found (stats c) + Z.of_nat n)
      (removed (stats c)) (miss (stats c)).
Proof.
  intros Hl Hr Hm. induction n as [|n IH].
  - simpl. rewrite !Z.add_0_r. by destruct (stats c).
  - destruct IH as (IHl & IHt & IHm & IHs).
    change (find_loop (S n) key c) with (find key (find_loop n key c)).2.
    set (c' := find_loop n key c) in *.
    assert (linked c') as Hl'.
    { unfold c'. clear IHl IHt IHm IHs. induction n as [|m IHm]; [done|].
      apply linked_find, IHm. }
    assert (resident key c') as Hr' by (unfold resident; by rewrite IHt).
    assert (most_recently_used c' = Some key) as Hm'.
    { unfold most_recently_used, keys. by rewrite IHl. }
    cbv zeta. split_and!.
    + by rewrite find_front_list.
    + by rewrite find_table.
    + by rewrite find_maxsize.
    + destruct Hr' as [cv Hk]. rewrite (find_hit_eq key c' cv Hk).
      rewrite !Nat2Z.inj_succ. simpl. rewrite IHs.
      unfold incr_found, incr_found_hits. simpl. f_equal; lia.
Qed.

(** X2: any number [n >= 1] of consecutive lookups of a resident key has
    the effect of the first one on the list and on the table; every one of
    them is a hit, so attempts and found both go up by [n]; nothing is
    evicted. *)
Theorem repeated_find_hit (capacity : Z) (ops : list opT) (key : key_type) (n : nat) :
  let c : CacheT := run (Cache_new capacity) ops in
  resident key c →
  let c' := find_loop (S n) key c in
  lru_list c' = lru_list (find key c).2 ∧
  most_recently_used c' = Some key ∧
  table c' = table c ∧
  stats c' =
    mk_stats (found_hits (stats c) + Z.of_nat (S n))
      (found (stats c) + Z.of_nat (S n))
      (removed (stats c)) (miss (stats c)).
Proof.
  intros c Hr c'. pose proof (linked_run capacity ops) as Hl. fold c in Hl.
  assert (find_loop (S n) key c = find_loop n key (find key c).2) as Heq.
  { unfold find_loop. by rewrite Nat.iter_succ_r. }
  unfold c'. rewrite Heq.
  destruct Hr as [cv Hk].
  destruct (keys_find_hit key c cv Hl Hk) as (l1 & l2 & _ & Hfront).
  destruct (find_loop_front n key (find key c).2) as (Hl1 & Ht1 & _ & Hs1).
  - by apply linked_find.
  - unfold resident. rewrite find_table. eauto.
  - unfold most_recently_used. by rewrite Hfront.
  - split_and!.
    + done.
    + unfold most_recently_used, keys. rewrite Hl1.
      fold (keys (find key c).2). by rewrite Hfront.
    + by rewrite Ht1, find_table.
    + rewrite Hs1, (find_hit_eq key c cv Hk), !Nat2Z.inj_succ.
      unfold incr_found, incr_found_hits. simpl. f_equal; lia.
Qed.
(** ** Values *)

(** When the key of an insert is resident afterwards, its entry holds
    the inserted value. *)
Lemma insert_value key v c :
  resident key (insert key v c) → deref key (insert key v c) = Some v.
Proof.
  unfold resident, deref. destruct (table c !! key) as [cv|] eqn:Hk.
  - by rewrite (insert_hit_lookup key v c cv Hk).
  - destruct (insert_miss_cases key v c Hk)
      as [[_ ->]|(_ & l & n & e & _ & ->)]; simpl.
    + by rewrite lookup_insert_eq.
    + rewrite lookup_delete. case_decide; [by intros [? ?]|].
      by rewrite lookup_insert_eq.
Qed.

(** X5: an insert does not touch the value stored under any other key
    that is still resident after it. *)
Theorem insert_keeps_other_values (key k : key_type) (v : value_type) (c : CacheT) :
  k ≠ key → resident k (insert key v c) →
  deref k (insert key v c) = deref k c.
Proof.
  unfold resident, deref. intros Hne.
  destruct (table c !! key) as [cv|] eqn:Hk.
  - rewrite (insert_hit_full key v c cv Hk). simpl.
    by rewrite lookup_alter_ne.
  - destruct (insert_miss_cases key v c Hk)
      as [[_ ->]|(_ & l & n & e & _ & ->)]; simpl.
    + by rewrite lookup_insert_ne.
    + rewrite lookup_delete. case_decide; [by intros [? ?]|].
      by rewrite lookup_insert_ne.
Qed.

(** A call that stores nothing under [k] neither makes [k] resident nor
    changes the value under it. *)
Lemma step_keeps_value c o k :
  writes k o = false → resident k (step c o) →
  resident k c ∧ deref k (step c o) = deref k c.
Proof.
  destruct o as [key|key v]; simpl; intros Hw Hr.
  - unfold resident, deref in *. by rewrite find_table in *.
  - apply bool_decide_eq_false in Hw. split.
    + by apply (step_resident_other c (Insert key v) k).
    + apply insert_keeps_other_values; [congruence|done].
Qed.

(** X13: a resident key holds the value of the latest insert on it: after
    [insert(key, v)] and any further calls none of which is an insert of
    [key], the entry of [key], if it is still resident, holds [v]. *)
Theorem resident_key_holds_latest_value (c : CacheT) (key : key_type)
    (v : value_type) (ops : list opT) :
  Forall (λ o, writes key o = false) ops →
  resident key (run (insert key v c) ops) →
  deref key (run (insert key v c) ops) = Some v.
Proof.
  induction ops as [|o ops IH] using rev_ind; intros Hw Hr.
  - by apply insert_value.
  - apply Forall_app in Hw as [Hw Ho]. apply Forall_inv in Ho.
    rewrite run_snoc in Hr |- *.
    destruct (step_keeps_value _ o key Ho Hr) as [Hr' ->]. by apply IH.
Qed.

(** ** Inserting a new key *)

(** X6: inserting an absent key into a cache that is not full evicts
    nothing: the key is linked in front of the unchanged list, every other
    entry is as before, and the size is one more. *)
Theorem insert_without_overflow (key : key_type) (v : value_type) (c : CacheT) :
  table c !! key = None →
  (Z.of_nat (cache_size c) < maxsize c)%Z →
  let c1 := insert key v c in
  keys c1 = key :: keys c ∧
  dom (table c1) = {[key]} ∪ dom (table c) ∧
  (∀ k, k ≠ key → table c1 !! k = table c !! k) ∧
  deref key c1 = Some v ∧
  cache_size c1 = S (cache_size c) ∧
  removed (stats c1) = removed (stats c).
Proof.
  intros Hk Hlt c1. unfold c1.
  destruct (insert_miss_cases key v c Hk)
    as [[_ ->]|(Hgt & _)]; [|lia].
  unfold deref, cache_size. simpl. split_and!; try done.
  - apply dom_insert_L.
  - intros k Hne. by rewrite lookup_insert_ne.
  - by rewrite lookup_insert_eq.
Qed.

(** An insert of an absent key into a linked cache of capacity at least
    1: either nothing goes, or the last node of the old list goes, and its
    key is not the new one. *)
Lemma insert_miss_linked key v c :
  linked c → (1 ≤ maxsize c)%Z → table c !! key = None →
  let cv := mk_cached_value v (fresh_node (lru_list c)) in
  insert key v c =
    mk_cache (maxsize c) ((fresh_node (lru_list c), key) :: lru_list c)
      (<[key := cv]> (table c)) (incr_found_hits (stats c))
  ∨ ∃ l n e,
      lru_list c = l ++ [(n, e)] ∧ e ≠ key ∧
      insert key v c =
        mk_cache (maxsize c) ((fresh_node (lru_list c), key) :: l)
          (delete e (<[key := cv]> (table c)))
          (incr_removed (incr_found_hits (stats c))).
Proof.
  intros Hl Hm Hk cv.
  destruct (insert_miss_cases key v c Hk)
    as [[_ ->]|(Hgt & l & n & e & He & ->)]; [by left|right].
  unfold cache_size in Hgt.
  destruct (back (lru_list c)) as [e'|] eqn:Hb;
    [|apply back_None in Hb; rewrite Hb in Hgt; simpl in Hgt; lia].
  destruct (back_Some _ _ Hb) as (l' & n' & Hc).
  rewrite Hc in He. rewrite app_comm_cons in He.
  apply app_inj_tail in He as [<- [= <- <-]].
  exists l', n', e'. split; [done|]. split; [|by rewrite Hc at 2].
  intros ->. assert (resident key c) as [? Hres]; [|congruence].
  apply (resident_keys c key Hl). unfold keys. rewrite Hc, fmap_app.
  apply elem_of_app. right. by apply list_elem_of_singleton.
Qed.

(** X3: in a cache of capacity at least 1, the key of an insert is
    resident and in front right after the insert, and a lookup of it
    then returns a pointer to the inserted value. *)
Theorem insert_then_find (capacity : Z) (ops : list opT) (key : key_type)
    (v : value_type) :
  (1 ≤ capacity ≤ INT_MAX)%Z →
  let c : CacheT := run (Cache_new capacity) ops in
  let c1 := insert key v c in
  resident key c1 ∧ most_recently_used c1 = Some key ∧
  ∃ p c2, find key c1 = (Some p, c2) ∧ deref p c2 = Some v.
Proof.
  intros Hcap c c1. pose proof (linked_run capacity ops) as Hl. fold c in Hl.
  assert (maxsize c = capacity) as Hm.
  { unfold c. rewrite run_maxsize. apply maxsize_new. lia. }
  assert (resident key c1 ∧ most_recently_used c1 = Some key) as [Hr Hf].
  { unfold c1. destruct (table c !! key) as [cv|] eqn:Hk.
    - split; [|apply insert_hit_front; [done|by exists cv]].
      unfold resident. rewrite (insert_hit_lookup key v c cv Hk). eauto.
    - destruct (insert_miss_linked key v c Hl ltac:(lia) Hk)
        as [->|(l & n & e & _ & Hne & ->)];
        unfold resident, most_recently_used; simpl.
      + rewrite lookup_insert_eq. eauto.
      + rewrite lookup_delete_ne, lookup_insert_eq by done. eauto. }
  split; [done|]. split; [done|].
  pose proof (insert_value key v c Hr) as Hv. fold c1 in Hv.
  destruct Hr as [cv Hcv]. rewrite (find_hit_eq key c1 cv Hcv).
  eexists key, _. split; [done|]. unfold deref in *. simpl. exact Hv.
Qed.
(** ** Size *)

Lemma overflowing_insert_miss c o :
  overflowing c o = true → is_insert_miss c o = true.
Proof.
  unfold overflowing, is_insert_miss, is_hit. destruct o as [key|key v]; [done|].
  simpl. intros [Hk _]%andb_true_iff. apply bool_decide_eq_true in Hk.
  rewrite bool_decide_eq_false_2; [done|]. rewrite Hk. by intros [? ?].
Qed.

Lemma is_hit_not_overflowing c o : is_hit c o = true → overflowing c o = false.
Proof.
  unfold overflowing, is_hit. destruct o as [key|key v]; [done|]. simpl.
  intros [cv Hk]%bool_decide_eq_true. rewrite Hk.
  by rewrite bool_decide_eq_false_2.
Qed.

(** One call: the size goes up by one for an insert of an absent key and
    down by one for an eviction. *)
Lemma step_size c o :
  linked c →
  cache_size (step c o) + (if overflowing c o then 1 else 0) =
  cache_size c + (if is_insert_miss c o then 1 else 0).
Proof.
  intros Hl. destruct o as [key|key v].
  - simpl. rewrite find_size by done. lia.
  - unfold is_insert_miss, is_hit, overflowing. simpl.
    destruct (table c !! key) as [cv|] eqn:Hk.
    + rewrite (bool_decide_eq_true_2 (is_Some _)) by eauto.
      rewrite (bool_decide_eq_false_2 (_ = None)) by done. simpl.
      rewrite insert_hit_eq by eauto.
      change (cache_size (assign key v (find key c).2))
        with (cache_size (find key c).2).
      rewrite find_size by done. lia.
    + rewrite (bool_decide_eq_false_2 (is_Some _)) by (by intros [? ?]).
      rewrite (bool_decide_eq_true_2 (_ = None)) by done. simpl.
      rewrite (add_entry_find_miss key v c Hk). unfold overflow. simpl.
      destruct (insert_miss_cases key v c Hk)
        as [[Hle ->]|(Hgt & l & n & e & He & ->)]; unfold cache_size in *; simpl.
      * rewrite bool_decide_eq_false_2 by lia. lia.
      * rewrite bool_decide_eq_true_2 by lia.
        apply (f_equal length) in He. rewrite length_app in He.
        simpl in He. lia.
Qed.

(** X12: the cache never shrinks: a call leaves the number of entries as
    it is or makes it one more. *)
Theorem size_never_shrinks (capacity : Z) (ops : list opT) (o : opT) :
  let c : CacheT := run (Cache_new capacity) ops in
  cache_size c ≤ cache_size (step c o) ≤ S (cache_size c).
Proof.
  intros c. pose proof (step_size c o (linked_run capacity ops)) as Hs.
  pose proof (overflowing_insert_miss c o) as Hi.
  destruct (overflowing c o), (is_insert_miss c o); try lia.
Qed.

Lemma size_run c ops :
  wf c →
  cache_size (run c ops) + count_calls overflowing c ops =
  cache_size c + count_calls is_insert_miss c ops.
Proof.
  revert c. induction ops as [|o ops IH]; intros c Hwf; [done|].
  change (run c (o :: ops)) with (run (step c o) ops). simpl.
  pose proof (step_size c o (proj1 Hwf)) as Hs.
  specialize (IH (step c o) (wf_step c o Hwf)). lia.
Qed.

(** X9: from a fresh cache, the number of entries is the number of
    inserts of an absent key minus the value of the removed counter. *)
Theorem size_accounting (capacity : Z) (ops : list opT) :
  let c0 : CacheT := Cache_new capacity in
  let c := run c0 ops in
  Z.of_nat (cache_size c) =
    (Z.of_nat (count_calls is_insert_miss c0 ops) - removed (stats c))%Z.
Proof.
  intros c0 c. pose proof (size_run c0 ops (wf_new capacity)) as Hs.
  fold c in Hs. change (cache_size c0) with 0 in Hs.
  assert (removed (stats c) = Z.of_nat (count_calls overflowing c0 ops)) as ->.
  { unfold c. rewrite stats_run. apply Z.add_0_l. }
  lia.
Qed.

Lemma count_calls_le (P : CacheT → opT → bool) c ops :
  count_calls P c ops ≤ length ops.
Proof.
  revert c. induction ops as [|o ops IH]; intros c; simpl; [done|].
  specialize (IH (step c o)). destruct (P c o); lia.
Qed.

Lemma count_hit_overflowing c ops :
  count_calls is_hit c ops + count_calls overflowing c ops ≤ length ops.
Proof.
  revert c. induction ops as [|o ops IH]; intros c; simpl; [done|].
  specialize (IH (step c o)). pose proof (is_hit_not_overflowing c o) as Hd.
  destruct (is_hit c o); [rewrite Hd by done; lia|].
  destruct (overflowing c o); lia.
Qed.

(** X8: from a fresh cache the counters are never negative, found never
    exceeds attempts, and removed never exceeds attempts minus found: an
    eviction only happens in a call that missed. *)
Theorem counters_ordered (capacity : Z) (ops : list opT) :
  let s := stats (run (Cache_new capacity : CacheT) ops) in
  (0 ≤ found s ≤ found_hits s ∧ 0 ≤ removed s ≤ found_hits s - found s)%Z.
Proof.
  intros s. subst s. rewrite stats_run. simpl.
  pose proof (count_hit_overflowing (Cache_new capacity) ops). lia.
Qed.

(** ** No eviction *)

(** Nothing is evicted while the entries and the calls still to come fit
    together into the capacity. *)
Lemma no_overflow_while_small c ops :
  wf c →
  (Z.of_nat (cache_size c + length ops) ≤ maxsize c)%Z →
  count_calls overflowing c ops = 0.
Proof.
  revert c. induction ops as [|o ops IH]; intros c Hwf Hle; [done|].
  simpl in *. pose proof (step_size c o (proj1 Hwf)) as Hs.
  assert (overflowing c o = false) as Ho.
  { destruct o as [key|key v]; [done|]. simpl.
    destruct (table c !! key) as [cv|] eqn:Hk;
      [by rewrite bool_decide_eq_false_2|].
    rewrite (add_entry_find_miss key v c Hk). unfold overflow. simpl.
    rewrite (bool_decide_eq_false_2 (_ < _)%Z); [by rewrite ?andb_false_r|].
    unfold cache_size in Hle. lia. }
  rewrite Ho in Hs |- *. simpl. apply IH; [by apply wf_step|].
  rewrite step_maxsize. destruct (is_insert_miss c o); lia.
Qed.

(** X10: a cache built with a negative capacity has [maxsize] at least
    2^31, so in any run of at most [INT_MAX] calls it evicts nothing and
    keeps an entry for every insert of an absent key. *)
Theorem negative_capacity_never_evicts (capacity : Z) (ops : list opT) :
  is_int capacity → (capacity < 0)%Z →
  (Z.of_nat (length ops) ≤ INT_MAX)%Z →
  let c0 : CacheT := Cache_new capacity in
  let c := run c0 ops in
  maxsize c = (capacity + 2 ^ 32)%Z ∧
  removed (stats c) = 0%Z ∧
  cache_size c = count_calls is_insert_miss c0 ops.
Proof.
  intros [Hlo _] Hneg Hlen c0 c. unfold INT_MIN, INT_MAX in *.
  assert (maxsize c0 = (capacity + 2 ^ 32)%Z) as Hm.
  { simpl. unfold int_to_unsigned.
    rewrite <- (Z.mod_add capacity 1 (2 ^ 32)) by lia.
    apply Z.mod_small. lia. }
  assert (count_calls overflowing c0 ops = 0) as Hz.
  { apply no_overflow_while_small; [apply wf_new|].
    rewrite Hm. change (cache_size c0) with 0. lia. }
  pose proof (size_run c0 ops (wf_new capacity)) as Hs.
  change (cache_size c0) with 0 in Hs. fold c in Hs.
  split_and!.
  - unfold c. by rewrite run_maxsize.
  - unfold c. rewrite stats_run. unfold removed at 1. rewrite Hz. done.
  - lia.
Qed.

Lemma inserted_keys_snoc ops o :
  inserted_keys (ops ++ [o]) =
    inserted_keys ops ∪
      match o with Insert k _ => {[k]} | Find _ => ∅ end.
Proof.
  unfold inserted_keys. rewrite omap_app, list_to_set_app_L.
  destruct o; simpl; set_solver.
Qed.

(** X14: while the inserts of a history name at most [capacity] distinct
    keys, nothing has been evicted and the resident keys are exactly the
    keys that were inserted. *)
Theorem no_eviction_below_capacity (capacity : Z) (ops : list opT) :
  (0 ≤ capacity ≤ INT_MAX)%Z →
  (Z.of_nat (size (inserted_keys ops)) ≤ capacity)%Z →
  let c : CacheT := run (Cache_new capacity) ops in
  removed (stats c) = 0%Z ∧ dom (table c) = inserted_keys ops.
Proof.
  intros Hcap. induction ops as [|o ops IH] using rev_ind; intros Hsz c.
  - split; [done|]. unfold c, inserted_keys. simpl. apply dom_empty_L.
  - unfold c. rewrite run_snoc. set (c' := run (Cache_new capacity) ops).
    rewrite inserted_keys_snoc in Hsz |- *.
    assert (size (inserted_keys ops) ≤
            size (inserted_keys ops ∪
                    match o with Insert k _ => {[k]} | Find _ => ∅ end))
      as Hmono by (apply subseteq_size; set_solver).
    destruct (IH ltac:(lia)) as [IHr IHd]. fold c' in IHr, IHd.
    pose proof (linked_run capacity ops) as Hl. fold c' in Hl.
    assert (maxsize c' = capacity) as Hm.
    { unfold c'. rewrite run_maxsize. by apply maxsize_new. }
    destruct o as [key|key v]; simpl.
    + rewrite union_empty_r_L. rewrite find_table.
      split; [|done]. by rewrite stats_find.
    + destruct (table c' !! key) as [cv|] eqn:Hk.
      * rewrite (insert_hit_full key v c' cv Hk). simpl.
        split; [done|]. rewrite dom_alter_L, IHd.
        assert (key ∈ inserted_keys ops); [|set_solver].
        rewrite <- IHd. apply elem_of_dom. eauto.
      * assert (key ∉ inserted_keys ops) as Hnotin.
        { rewrite <- IHd, elem_of_dom, Hk. by intros [? ?]. }
        rewrite size_union, size_singleton in Hsz by set_solver.
        assert (cache_size c' = size (inserted_keys ops)) as Hcs.
        { unfold cache_size. by rewrite <- table_size, <- size_dom, IHd. }
        destruct (insert_miss_cases key v c' Hk)
          as [[_ ->]|(Hgt & _)]; [|lia].
        simpl. split; [done|]. rewrite dom_insert_L, IHd. set_solver.
Qed.
(** ** The whole list *)

Lemma sorted_lookup {B} (R : relation B) (l : list B) i j x y :
  StronglySorted R l → i < j → l !! i = Some x → l !! j = Some y → R x y.
Proof.
  intros Hs. revert i j. induction Hs as [|a l Hs IH Ha]; intros i j Hij Hi Hj.
  - by rewrite lookup_nil in Hi.
  - destruct j as [|j]; [lia|]. simpl in Hj. destruct i as [|i].
    + injection Hi as <-. rewrite Forall_forall in Ha. apply Ha.
      by apply list_elem_of_lookup_2 in Hj.
    + simpl in Hi. apply (IH i j); [lia|done|done].
Qed.

(** X7: after any sequence of calls the list holds the resident keys in
    the order of their latest touch: a key nearer the front was touched
    later than every key behind it. *)
Theorem list_ordered_by_recency (capacity : Z) (ops : list opT)
    (i j : nat) (ki kj : key_type) :
  let c : CacheT := run (Cache_new capacity) ops in
  i < j → keys c !! i = Some ki → keys c !! j = Some kj →
  last_touch ops kj < last_touch ops ki.
Proof.
  intros c Hij Hi Hj.
  apply (sorted_lookup (more_recent ops) (keys c) i j ki kj); try done.
  apply recency_run.
Qed.

(** ** Reading the report back *)

Lemma append_cons (a : ascii) (s t : string) :
  String a s +:+ t = String a (s +:+ t).
Proof. done. Qed.

Lemma append_nil (t : string) : EmptyString +:+ t = t.
Proof. done. Qed.

(** Two texts that agree up to and after the first line end agree on the
    line and on the rest. *)
Lemma split_line (s1 s2 r1 r2 : string) :
  newlines s1 = 0 → newlines s2 = 0 →
  s1 +:+ endl +:+ r1 = s2 +:+ endl +:+ r2 → s1 = s2 ∧ r1 = r2.
Proof.
  unfold endl. revert s2.
  induction s1 as [|a s1 IH]; intros [|b s2] H1 H2 Heq;
    rewrite ?append_cons, ?append_nil in Heq.
  - by injection Heq as ->.
  - injection Heq as <- _. by simpl in H2.
  - injection Heq as -> _. by simpl in H1.
  - injection Heq as -> Heq. simpl in H1, H2.
    destruct (IH s2) as [-> ->]; [lia|lia| |done].
    by rewrite ?append_cons, ?append_nil.
Qed.

Lemma put_line_inj (label : string) (n1 n2 : Z) (r1 r2 : string) :
  label +:+ pretty n1 +:+ endl +:+ r1 = label +:+ pretty n2 +:+ endl +:+ r2 →
  n1 = n2 ∧ r1 = r2.
Proof.
  intros Heq. apply (inj (String.append label)) in Heq.
  apply split_line in Heq as [Hn ->]; [|apply newlines_pretty_Z..].
  split; [|done]. by apply (inj pretty).
Qed.

(** X11: the report determines the counters: two caches whose reports,
    written to the same stream, are the same text have the same attempts,
    found and removed counters. *)
Theorem report_determines_counters (out : string) (c1 c2 : CacheT) :
  (statistics out c1).1 = (statistics out c2).1 →
  found_hits (stats c1) = found_hits (stats c2) ∧
  found (stats c1) = found (stats c2) ∧
  removed (stats c1) = removed (stats c2).
Proof.
  unfold statistics, put_line. simpl. rewrite !string_app_assoc. intros Heq.
  apply (inj (String.append out)) in Heq.
  apply put_line_inj in Heq as [Ha Heq].
  apply put_line_inj in Heq as [Hf Heq].
  apply put_line_inj in Heq as [Hr _]. done.
Qed.
(** ** The cache as an LRU list *)

Local Arguments entries : simpl never.

Section Entries.
Implicit Types (t : gmap key_type (@cached_value value_type))
  (ks : list key_type).

Lemma entries_app t ks1 ks2 :
  entries t (ks1 ++ ks2) = entries t ks1 ++ entries t ks2.
Proof. apply omap_app. Qed.

Lemma entries_cons t k ks :
  entries t (k :: ks) =
    match t !! k with
    | Some cv => (k, value cv) :: entries t ks
    | None => entries t ks
    end.
Proof. unfold entries. simpl. by destruct (t !! k). Qed.

Lemma entries_cons_Some t k ks cv :
  t !! k = Some cv → entries t (k :: ks) = (k, value cv) :: entries t ks.
Proof. intros Hk. by rewrite entries_cons, Hk. Qed.

Lemma entries_ext t t' ks :
  (∀ k, k ∈ ks → t !! k = t' !! k) → entries t ks = entries t' ks.
Proof.
  induction ks as [|k ks IH]; intros Hext; [done|].
  rewrite !entries_cons, (Hext k) by (apply elem_of_cons; by left).
  rewrite IH; [done|]. intros k' Hk'. apply Hext, elem_of_cons. by right.
Qed.

Lemma entries_length t ks :
  (∀ k, k ∈ ks → is_Some (t !! k)) → length (entries t ks) = length ks.
Proof.
  induction ks as [|k ks IH]; intros Hall; [done|].
  destruct (Hall k) as [cv Hk]; [apply elem_of_cons; by left|].
  rewrite (entries_cons_Some t k ks cv Hk). simpl. rewrite IH; [done|].
  intros k' Hk'. apply Hall, elem_of_cons. by right.
Qed.

Lemma entries_filter (P : key_type → Prop) `{!∀ k, Decision (P k)} t ks :
  filter (λ kv, P kv.1) (entries t ks) = entries t (filter P ks).
Proof.
  induction ks as [|k ks IH]; [done|].
  rewrite (filter_cons P). destruct (t !! k) as [cv|] eqn:Hk.
  - rewrite (entries_cons_Some t k ks cv Hk), filter_cons. simpl.
    destruct (decide (P k)); [|done].
    by rewrite (entries_cons_Some t k _ cv Hk), IH.
  - assert (∀ l, entries t (k :: l) = entries t l) as Hskip.
    { intros l. by rewrite entries_cons, Hk. }
    rewrite Hskip. destruct (decide (P k)); [|done]. by rewrite Hskip.
Qed.

Lemma entries_filter_eq t ks k :
  filter (λ kv, kv.1 = k) (entries t ks) = entries t (filter (λ x, x = k) ks).
Proof. exact (entries_filter (λ x, x = k) t ks). Qed.

Lemma entries_filter_ne t ks k :
  filter (λ kv, kv.1 ≠ k) (entries t ks) = entries t (filter (λ x, x ≠ k) ks).
Proof. exact (entries_filter (λ x, x ≠ k) t ks). Qed.

Lemma filter_absent k ks :
  k ∉ ks → filter (λ x, x = k) ks = [] ∧ filter (λ x, x ≠ k) ks = ks.
Proof.
  induction ks as [|x ks IH]; intros Hk; [done|].
  apply not_elem_of_cons in Hk as [Hne Hk]. destruct (IH Hk) as [IH1 IH2].
  rewrite filter_cons_False, filter_cons_True by congruence.
  by rewrite IH1, IH2.
Qed.

Lemma filter_present k ks1 ks2 :
  NoDup (ks1 ++ k :: ks2) →
  filter (λ x, x = k) (ks1 ++ k :: ks2) = [k] ∧
  filter (λ x, x ≠ k) (ks1 ++ k :: ks2) = ks1 ++ ks2.
Proof.
  intros (_ & Hd & [Hk2 _]%NoDup_cons)%NoDup_app.
  assert (k ∉ ks1) as Hk1.
  { intros Hin. apply (Hd k Hin). apply elem_of_cons. by left. }
  destruct (filter_absent k ks1 Hk1) as [H1 H1'].
  destruct (filter_absent k ks2 Hk2) as [H2 H2'].
  rewrite !filter_app, filter_cons_True, filter_cons_False by auto.
  by rewrite H1, H1', H2, H2'.
Qed.
End Entries.

(** One call on the cache is one step of the reference list. *)
Lemma contents_step c o :
  wf c →
  contents (step c o) =
    lru_list_step (Z.to_nat (maxsize c)) (contents c) o.
Proof.
  intros [Hl Hc]. unfold within_capacity, cache_size in Hc.
  pose proof (linked_keys c Hl) as Hnd.
  assert (∀ k, k ∈ keys c → is_Some (table c !! k)) as Hres.
  { intros k. by apply resident_keys. }
  assert (length (keys c) = length (lru_list c)) as Hlen
    by (unfold keys; apply length_fmap).
  unfold contents, lru_list_step, lru_list_find, lru_list_insert.
  destruct o as [key|key v]; simpl step;
    destruct (table c !! key) as [cv|] eqn:Hk.
  - rewrite find_table.
    destruct (keys_find_hit key c cv Hl Hk) as (l1 & l2 & Hks & ->).
    rewrite Hks in Hnd |- *.
    rewrite entries_filter_eq, entries_filter_ne.
    destruct (filter_present key l1 l2 Hnd) as [-> ->].
    by rewrite <- entries_app.
  - rewrite (find_miss_eq key c Hk).
    change (keys (set_stats _ c)) with (keys c). simpl.
    rewrite entries_filter_eq, entries_filter_ne.
    destruct (filter_absent key (keys c)) as [-> ->]; [|done].
    rewrite <- (resident_keys c key Hl). unfold resident. rewrite Hk.
    by intros [? ?].
  - rewrite entries_filter_ne.
    rewrite insert_hit_eq by eauto.
    change (keys (assign key v (find key c).2)) with (keys (find key c).2).
    destruct (keys_find_hit key c cv Hl Hk) as (l1 & l2 & Hks & ->).
    rewrite Hks in Hnd, Hres, Hlen |- *.
    destruct (filter_present key l1 l2 Hnd) as [_ ->].
    rewrite (find_hit_eq key c cv Hk). simpl.
    assert (key ∉ l1 ++ l2) as Hnot.
    { apply NoDup_app in Hnd as (_ & Hd & [Hk2 _]%NoDup_cons).
      intros [Hin|Hin]%elem_of_app; [|done].
      apply (Hd key Hin). apply elem_of_cons. by left. }
    rewrite (entries_cons_Some _ key _ (mk_cached_value v (cache_i cv)))
      by (by rewrite lookup_alter_eq, Hk).
    rewrite (entries_ext _ (table c) (l1 ++ l2)).
    + rewrite take_ge; [done|]. simpl. rewrite entries_length.
      * rewrite length_app, length_cons in Hlen. rewrite length_app. lia.
      * intros k Hin. apply Hres. set_solver.
    + intros k Hin. rewrite lookup_alter_ne; [done|]. by intros ->.
  - rewrite entries_filter_ne.
    assert (key ∉ keys c) as Hnot.
    { rewrite <- (resident_keys c key Hl). unfold resident. rewrite Hk.
      by intros [? ?]. }
    destruct (filter_absent key (keys c) Hnot) as [_ ->].
    set (t1 := <[key := mk_cached_value v (fresh_node (lru_list c))]> (table c)).
    assert ((key, v) :: entries (table c) (keys c) = entries t1 (key :: keys c))
      as Hcons.
    { rewrite (entries_cons_Some t1 key _ (mk_cached_value v (fresh_node (lru_list c))))
        by apply lookup_insert_eq.
      simpl. f_equal. apply entries_ext. intros k Hin. unfold t1.
      rewrite lookup_insert_ne; [done|]. by intros ->. }
    assert (∀ k, k ∈ key :: keys c → is_Some (t1 !! k)) as Hres1.
    { intros k [->|Hin]%elem_of_cons; unfold t1.
      - rewrite lookup_insert_eq. eauto.
      - rewrite lookup_insert_ne; [by apply Hres|]. by intros ->. }
    rewrite Hcons.
    destruct (insert_miss_cases key v c Hk)
      as [[Hle ->]|(Hgt & l & n & e & He & ->)]; unfold cache_size in *; simpl.
    + fold t1. change (keys (mk_cache _ _ _ _)) with (key :: keys c).
      rewrite take_ge; [done|]. rewrite entries_length by done.
      simpl. lia.
    + fold t1. change (keys (mk_cache _ _ _ _)) with (l.*2).
      assert (key :: keys c = l.*2 ++ [e]) as Hks.
      { unfold keys. apply (f_equal (fmap snd)) in He.
        by rewrite fmap_cons, fmap_app in He. }
      assert (NoDup (l.*2 ++ [e])) as Hnd'.
      { rewrite <- Hks. by apply NoDup_cons. }
      assert (e ∉ l.*2) as Hel.
      { apply NoDup_app in Hnd' as (_ & Hd & _). intros Hin.
        apply (Hd e Hin). by apply list_elem_of_singleton. }
      rewrite Hks in Hres1 |- *. rewrite entries_app.
      rewrite take_app_length'.
      * apply entries_ext. intros k Hin. rewrite lookup_delete_ne; [done|].
        by intros ->.
      * rewrite entries_length by (intros k Hin; apply Hres1; set_solver).
        apply (f_equal length) in He. rewrite length_app in He.
        simpl in He. rewrite length_fmap. lia.
Qed.

(** X15: the cache refines the reference LRU list: after any sequence of
    calls the keys in list order, each with the value the table stores
    for it, are the list the reference steps produce for the same calls
    with the capacity the constructor stored. *)
Theorem cache_refines_lru_list (capacity : Z) (ops : list opT) :
  contents (run (Cache_new capacity : CacheT) ops) =
    lru_list_run (Z.to_nat (int_to_unsigned capacity)) ops.
Proof.
  induction ops as [|o ops IH] using rev_ind; [done|].
  rewrite run_snoc. unfold lru_list_run. rewrite foldl_snoc.
  fold (lru_list_run (Z.to_nat (int_to_unsigned capacity)) ops).
  rewrite <- IH.
  rewrite (contents_step _ o (wf_run _ ops (wf_new capacity))).
  by rewrite run_maxsize.
Qed.

(** X16: a key holds a value in the cache exactly when the pair is among
    the entries in list order, and no key occurs twice there; so the
    reference list answers every lookup as the cache does. *)
Theorem contents_answers_lookups (capacity : Z) (ops : list opT) :
  let c : CacheT := run (Cache_new capacity) ops in
  NoDup (contents c).*1 ∧
  ∀ k v, deref k c = Some v ↔ (k, v) ∈ contents c.
Proof.
  intros c. pose proof (linked_run capacity ops) as Hl. fold c in Hl.
  assert ((contents c).*1 = keys c) as Hfst.
  { unfold contents.
    assert (∀ k, k ∈ keys c → is_Some (table c !! k)) as Hres
      by (intros k; by apply resident_keys).
    induction (keys c) as [|k ks IH]; [done|].
    destruct (Hres k) as [cv Hk]; [apply elem_of_cons; by left|].
    rewrite (entries_cons_Some _ k ks cv Hk). simpl. f_equal.
    apply IH. intros k' Hin. apply Hres, elem_of_cons. by right. }
  split; [rewrite Hfst; apply (linked_keys c Hl)|].
  intros k v. unfold contents, entries, deref. rewrite list_elem_of_omap. split.
  - intros Hv. exists k. destruct (table c !! k) as [cv|] eqn:Hk; [|done].
    simpl in Hv. injection Hv as <-. split; [|done].
    apply (resident_keys c k Hl). unfold resident. rewrite Hk. eauto.
  - intros (x & _ & Hx). destruct (table c !! x) as [cv|] eqn:Hk; [|done].
    simpl in Hx. injection Hx as -> <-. by rewrite Hk.
Qed.

(** ** What only an insert does *)

(** X18: a lookup never adds a key: every resident key is the key of
    some insert of the history. *)
Theorem resident_was_inserted (capacity : Z) (ops : list opT) (k : key_type) :
  resident k (run (Cache_new capacity : CacheT) ops) → k ∈ inserted_keys ops.
Proof.
  induction ops as [|o ops IH] using rev_ind.
  - unfold resident. simpl. rewrite lookup_empty. by intros [? ?].
  - rewrite run_snoc, inserted_keys_snoc. intros Hr.
    destruct o as [key|key v].
    + simpl in Hr. unfold resident in Hr. rewrite find_table in Hr.
      apply elem_of_union. left. by apply IH.
    + destruct (decide (key = k)) as [->|Hne].
      * apply elem_of_union. right. by apply elem_of_singleton.
      * apply elem_of_union. left. apply IH.
        by apply (step_resident_other _ (Insert key v) k).
Qed.

(** X19: an insert of an absent key evicts exactly when the cache is
    full: then the removed counter goes up by one and the size stays;
    otherwise the counter stays and the size goes up by one. *)
Theorem eviction_iff_full (capacity : Z) (ops : list opT) (key : key_type)
    (v : value_type) :
  let c : CacheT := run (Cache_new capacity) ops in
  table c !! key = None →
  let full := bool_decide (Z.of_nat (cache_size c) = maxsize c) in
  removed (stats (insert key v c)) =
    (removed (stats c) + (if full then 1 else 0))%Z ∧
  cache_size (insert key v c) =
    (if full then cache_size c else S (cache_size c)).
Proof.
  intros c Hk full.
  destruct (wf_run (Cache_new capacity) ops (wf_new capacity)) as [Hl Hc].
  fold c in Hl, Hc. unfold within_capacity in Hc. unfold full.
  destruct (insert_miss_cases key v c Hk)
    as [[Hle ->]|(Hgt & l & n & e & He & ->)]; simpl.
  - rewrite bool_decide_eq_false_2 by lia. split; [lia|done].
  - rewrite bool_decide_eq_true_2 by lia. split; [done|].
    apply (f_equal length) in He. rewrite length_app in He. simpl in He.
    unfold cache_size. simpl. lia.
Qed.
End Cache_more.

(** ** Instances of the further properties *)

Lemma find_hit_moves_to_front_witness :
  let c := run (Sample.cache 2) Sample.fill in
  resident "b" c ∧
  (find "b" c).1 = Some "b" ∧
  table (find "b" c).2 = table c ∧
  (∃ l1 l2, keys c = l1 ++ "b" :: l2 ∧ keys (find "b" c).2 = "b" :: l1 ++ l2) ∧
  stats (find "b" c).2 =
    mk_stats (found_hits (stats c) + 1) (found (stats c) + 1)
      (removed (stats c)) (miss (stats c)).
Proof.
  intros c. assert (resident "b" c) as Hr by (eexists; reflexivity).
  split; [exact Hr|]. exact (find_hit_moves_to_front 2 Sample.fill "b" Hr).
Defined.

Lemma repeated_find_hit_witness :
  let c := run (Sample.cache 2) Sample.fill in
  let c' := find_loop 3 "b" c in
  resident "b" c ∧
  lru_list c' = lru_list (find "b" c).2 ∧
  most_recently_used c' = Some "b" ∧
  table c' = table c ∧
  stats c' =
    mk_stats (found_hits (stats c) + Z.of_nat 3) (found (stats c) + Z.of_nat 3)
      (removed (stats c)) (miss (stats c)).
Proof.
  intros c c'. assert (resident "b" c) as Hr by (eexists; reflexivity).
  split; [exact Hr|]. exact (repeated_find_hit 2 Sample.fill "b" 2 Hr).
Defined.

Lemma insert_then_find_witness :
  let c := run (Sample.cache 2) Sample.fill in
  let c1 := insert "c" 3%Z c in
  (1 ≤ 2 ≤ INT_MAX)%Z ∧
  resident "c" c1 ∧ most_recently_used c1 = Some "c" ∧
  ∃ p c2, find "c" c1 = (Some p, c2) ∧ deref p c2 = Some 3%Z.
Proof.
  intros c c1. assert (1 ≤ 2 ≤ INT_MAX)%Z as Hc by (unfold INT_MAX; lia).
  split; [exact Hc|]. exact (insert_then_find 2 Sample.fill "c" 3%Z Hc).
Defined.

Lemma insert_keeps_other_values_witness :
  let c := run (Sample.cache 2) Sample.fill in
  "a" ≠ "c" ∧ resident "a" (insert "c" 3%Z c) ∧
  deref "a" (insert "c" 3%Z c) = deref "a" c.
Proof.
  intros c. assert ("a" ≠ "c") as Hne by discriminate.
  assert (resident "a" (insert "c" 3%Z c)) as Hr by (eexists; reflexivity).
  split; [exact Hne|]. split; [exact Hr|].
  exact (insert_keeps_other_values "c" "a" 3%Z c Hne Hr).
Defined.

Lemma resident_key_holds_latest_value_witness :
  let ops := [Find "a"; Insert "b" 2%Z] in
  let c := run (insert "a" 9%Z (Sample.cache 2)) ops in
  Forall (λ o, writes "a" o = false) ops ∧
  resident "a" c ∧ deref "a" c = Some 9%Z.
Proof.
  intros ops c.
  assert (Forall (λ o, writes "a" o = false) ops) as Hw
    by (repeat constructor).
  assert (resident "a" c) as Hr by (eexists; reflexivity).
  split; [exact Hw|]. split; [exact Hr|].
  exact (resident_key_holds_latest_value (Sample.cache 2) "a" 9%Z ops Hw Hr).
Defined.

Lemma insert_without_overflow_witness :
  let c := run (Sample.cache 3) Sample.fill in
  let c1 := insert "c" 3%Z c in
  table c !! "c" = None ∧ (Z.of_nat (cache_size c) < maxsize c)%Z ∧
  keys c1 = "c" :: keys c ∧
  dom (table c1) = {["c"]} ∪ dom (table c) ∧
  (∀ k, k ≠ "c" → table c1 !! k = table c !! k) ∧
  deref "c" c1 = Some 3%Z ∧
  cache_size c1 = S (cache_size c) ∧
  removed (stats c1) = removed (stats c).
Proof.
  intros c c1. assert (table c !! "c" = None) as Hk by reflexivity.
  assert (Z.of_nat (cache_size c) < maxsize c)%Z as Hlt by reflexivity.
  split; [exact Hk|]. split; [exact Hlt|].
  exact (insert_without_overflow "c" 3%Z c Hk Hlt).
Defined.

Lemma negative_capacity_never_evicts_witness :
  let c0 := Sample.cache (-1) in
  let c := run c0 Sample.fill in
  is_int (-1) ∧ (-1 < 0)%Z ∧ (Z.of_nat (length Sample.fill) ≤ INT_MAX)%Z ∧
  maxsize c = (-1 + 2 ^ 32)%Z ∧
  removed (stats c) = 0%Z ∧
  cache_size c = count_calls is_insert_miss c0 Sample.fill.
Proof.
  intros c0 c.
  assert (is_int (-1)) as Hi by (unfold is_int, INT_MIN, INT_MAX; lia).
  assert (Z.of_nat (length Sample.fill) ≤ INT_MAX)%Z as Hl
    by (unfold INT_MAX; simpl; lia).
  split; [exact Hi|]. split; [lia|]. split; [exact Hl|].
  exact (negative_capacity_never_evicts (-1) Sample.fill Hi ltac:(lia) Hl).
Defined.

Lemma no_eviction_below_capacity_witness :
  let c := run (Sample.cache 2) Sample.fill in
  (0 ≤ 2 ≤ INT_MAX)%Z ∧
  (Z.of_nat (size (inserted_keys Sample.fill)) ≤ 2)%Z ∧
  removed (stats c) = 0%Z ∧ dom (table c) = inserted_keys Sample.fill.
Proof.
  intros c. assert (0 ≤ 2 ≤ INT_MAX)%Z as Hc by (unfold INT_MAX; lia).
  assert (Z.of_nat (size (inserted_keys Sample.fill)) ≤ 2)%Z as Hs
    by (vm_compute; discriminate).
  split; [exact Hc|]. split; [exact Hs|].
  exact (no_eviction_below_capacity 2 Sample.fill Hc Hs).
Defined.

Lemma list_ordered_by_recency_witness :
  let c := run (Sample.cache 2) Sample.fill in
  0 < 1 ∧ keys c !! 0 = Some "a" ∧ keys c !! 1 = Some "b" ∧
  last_touch Sample.fill "b" < last_touch Sample.fill "a".
Proof.
  intros c. split; [lia|]. split; [reflexivity|]. split; [reflexivity|].
  apply (list_ordered_by_recency 2 Sample.fill 0 1 "a" "b");
    [lia|reflexivity|reflexivity].
Defined.

Lemma report_determines_counters_witness :
  let c1 := run (Sample.cache 2) Sample.fill in
  let c2 := run (Sample.cache 3) Sample.fill in
  (statistics "" c1).1 = (statistics "" c2).1 ∧
  found_hits (stats c1) = found_hits (stats c2) ∧
  found (stats c1) = found (stats c2) ∧
  removed (stats c1) = removed (stats c2).
Proof.
  intros c1 c2.
  assert ((statistics "" c1).1 = (statistics "" c2).1) as Heq by reflexivity.
  split; [exact Heq|]. exact (report_determines_counters "" c1 c2 Heq).
Defined.

Lemma counters_in_int_witness :
  let s := stats (run (Sample.cache 2) Sample.fill) in
  (Z.of_nat (length Sample.fill) ≤ INT_MAX)%Z ∧
  is_int (found_hits s) ∧ is_int (found s) ∧ is_int (removed s) ∧
  is_int (miss s) ∧ is_int (found_hits s - found s).
Proof.
  intros s.
  assert (Z.of_nat (length Sample.fill) ≤ INT_MAX)%Z as Hl
    by (unfold INT_MAX; simpl; lia).
  split; [exact Hl|]. exact (counters_in_int 2 Sample.fill Hl).
Defined.

Lemma resident_was_inserted_witness :
  resident "b" (run (Sample.cache 2) Sample.fill) ∧
  "b" ∈ inserted_keys Sample.fill.
Proof.
  assert (resident "b" (run (Sample.cache 2) Sample.fill)) as Hr
    by (eexists; reflexivity).
  split; [exact Hr|]. exact (resident_was_inserted 2 Sample.fill "b" Hr).
Defined.

Lemma eviction_iff_full_witness :
  let c := run (Sample.cache 2) Sample.fill in
  table c !! "c" = None ∧
  removed (stats (insert "c" 3%Z c)) = (removed (stats c) + 1)%Z ∧
  cache_size (insert "c" 3%Z c) = cache_size c.
Proof.
  intros c. assert (table c !! "c" = None) as Hk by reflexivity.
  split; [exact Hk|]. exact (eviction_iff_full 2 Sample.fill "c" 3%Z Hk).
Defined.

(** What the test program has written when [main] returns. *)
Example main_output :
  Main.cout =
    "cache found hits:7" +:+ endl +:+ "cache found     :1" +:+ endl +:+
    "cache removed   :2" +:+ endl +:+ "cache missed    :6" +:+ endl +:+
    "cache found hits:37" +:+ endl +:+ "cache found     :31" +:+ endl +:+
    "cache removed   :2" +:+ endl +:+ "cache missed    :6" +:+ endl.
Proof. vm_compute. reflexivity. Qed.
